(** * life.c: the row-sliced Game of Life engine with encoded neighbour counts

    A shallow embedding of [src/life.c].  A board is a C [char] buffer,
    modelled as a list of integers; the two buffers the engine works on are
    threaded explicitly, and the global [LDA] is an explicit argument.

    The worker threads are modelled generation by generation, as the two
    barriers make them run: all updates of a generation, in any
    interleaving of the workers, then all copies.  One cell update is one
    step of the interleaving.

    Reads outside a buffer are undefined in C: here they yield 0, and writes
    outside a buffer are dropped.  When the thread count leaves every worker
    at least two rows, the engine never leaves the buffers. *)

From Stdlib Require Import ZArith Lia.
From stdpp Require Import base list.
Local Open Scope Z_scope.

(** ** C characters and buffers *)

Abbreviation board := (list Z).

(** Conversion of an [int] back to a (signed, 8-bit) [char]. *)
Definition to_char (z : Z) : Z := (z + 128) `mod` 256 - 128.

(** [b[z]] for an offset [z]. *)
Definition peek (b : board) (z : Z) : Z :=
  if 0 <=? z then default 0 (b !! Z.to_nat z) else 0.

(** [b[z] = v]. *)
Definition poke (b : board) (z : Z) (v : Z) : board :=
  if 0 <=? z then <[Z.to_nat z := v]> b else b.

(** [memmove(dst, src, len)] and [memcpy(dst + off, src + off, len)]. *)
Definition memmove (dst src : board) (len : Z) : board :=
  take (Z.to_nat len) src ++ drop (Z.to_nat len) dst.

Definition memcpy_at (dst src : board) (off len : Z) : board :=
  take (Z.to_nat off) dst
  ++ take (Z.to_nat len) (drop (Z.to_nat off) src)
  ++ drop (Z.to_nat off + Z.to_nat len) dst.

(** ** The macros of life.h and util.h

    The two headers are not part of the sources; what follows is their
    model. *)

(** Modelled from the spec: [mod] of util.h, "index arithmetic modulo n in
    both dimensions". *)
Definition mod_ (x m : Z) : Z := x `mod` m.

(** Modelled from the spec: [BOARD] of life.h, the cell at row [i] and
    column [j] of a row-major board whose row length is the global [LDA]. *)
Definition BOARD_offset (LDA i j : Z) : Z := i * LDA + j.

Definition BOARD (LDA : Z) (b : board) (i j : Z) : Z :=
  peek b (BOARD_offset LDA i j).

Definition BOARD_store (LDA : Z) (b : board) (i j v : Z) : board :=
  poke b (BOARD_offset LDA i j) v.

(** Modelled from the spec: the encoded cell of life.h, "one value per grid
    position holding two fields: an alive flag and a live-neighbor count
    (integer 0-8)".  The flag is bit 4, the count the four low bits. *)
Definition ALIVE (c : Z) : Z := Z.land (Z.shiftr c 4) 1.

(** The neighbour-count field (read by [TOKILL] and [TOSPAWN]). *)
Definition NEIGHBOURS (c : Z) : Z := Z.land c 15.

(** Modelled from the spec: [SPAWN] and [KILL], "mutate only the alive flag,
    leaving the neighbor-count field untouched". *)
Definition SPAWN (c : Z) : Z := Z.lor c 16.
Definition KILL (c : Z) : Z := Z.land c (Z.lnot 16).

(** Modelled from the spec: [TOKILL], "true iff alive and neighbor count is
    not 2 and not 3"; [TOSPAWN], "true iff dead and neighbor count equals
    exactly 3". *)
Definition TOKILL (c : Z) : bool :=
  negb (ALIVE c =? 0) && negb (NEIGHBOURS c =? 2) && negb (NEIGHBOURS c =? 3).

Definition TOSPAWN (c : Z) : bool :=
  (ALIVE c =? 0) && (NEIGHBOURS c =? 3).

(** Modelled from the spec: [N_INC] and [N_DEC], "adjust the count field by
    +-1" with no clamping; an increment of the [char] itself. *)
Definition N_INC (LDA : Z) (b : board) (i j : Z) : board :=
  BOARD_store LDA b i j (to_char (BOARD LDA b i j + 1)).

Definition N_DEC (LDA : Z) (b : board) (i j : Z) : board :=
  BOARD_store LDA b i j (to_char (BOARD LDA b i j - 1)).

(** A C condition: non-zero is true. *)
Definition truthy (z : Z) : bool := negb (z =? 0).

(** ** The two buffers *)

(** [outboard] ("next") and [inboard] ("current") are distinct buffers. *)
Record buffers := Buffers { outboard : board; inboard : board }.

(** ** kill_cell, spawn_cell, do_cell *)

Definition kill_cell (LDA : Z) (outboard : board) (i j size : Z) : board :=
  let outboard := BOARD_store LDA outboard i j (KILL (BOARD LDA outboard i j)) in
  let jwest := mod_ (j - 1) size in
  let jeast := mod_ (j + 1) size in
  let inorth := mod_ (i - 1) size in
  let isouth := mod_ (i + 1) size in
  let outboard := N_DEC LDA outboard inorth jwest in
  let outboard := N_DEC LDA outboard inorth j in
  let outboard := N_DEC LDA outboard inorth jeast in
  let outboard := N_DEC LDA outboard i jwest in
  let outboard := N_DEC LDA outboard i jeast in
  let outboard := N_DEC LDA outboard isouth jwest in
  let outboard := N_DEC LDA outboard isouth j in
  let outboard := N_DEC LDA outboard isouth jeast in
  outboard.

Definition spawn_cell (LDA : Z) (outboard : board) (i j size : Z) : board :=
  let outboard := BOARD_store LDA outboard i j (SPAWN (BOARD LDA outboard i j)) in
  let jwest := mod_ (j - 1) size in
  let jeast := mod_ (j + 1) size in
  let inorth := mod_ (i - 1) size in
  let isouth := mod_ (i + 1) size in
  let outboard := N_INC LDA outboard inorth jwest in
  let outboard := N_INC LDA outboard inorth j in
  let outboard := N_INC LDA outboard inorth jeast in
  let outboard := N_INC LDA outboard i jwest in
  let outboard := N_INC LDA outboard i jeast in
  let outboard := N_INC LDA outboard isouth jwest in
  let outboard := N_INC LDA outboard isouth j in
  let outboard := N_INC LDA outboard isouth jeast in
  outboard.

Definition do_cell (LDA : Z) (m : buffers) (i j size : Z) : buffers :=
  let cell := BOARD LDA (inboard m) i j in
  if truthy (ALIVE cell) then
    if TOKILL cell then
      let out := outboard m in
      let out := BOARD_store LDA out i j (KILL (BOARD LDA out i j)) in
      let jwest := mod_ (j - 1) size in
      let jeast := mod_ (j + 1) size in
      let inorth := mod_ (i - 1) size in
      let isouth := mod_ (i + 1) size in
      let out := N_DEC LDA out inorth jwest in
      let out := N_DEC LDA out inorth j in
      let out := N_DEC LDA out inorth jeast in
      let out := N_DEC LDA out i jwest in
      let out := N_DEC LDA out i jeast in
      let out := N_DEC LDA out isouth jwest in
      let out := N_DEC LDA out isouth j in
      let out := N_DEC LDA out isouth jeast in
      Buffers out (inboard m)
    else m
  else
    if TOSPAWN cell then
      let out := outboard m in
      let out := BOARD_store LDA out i j (SPAWN (BOARD LDA out i j)) in
      let jwest := mod_ (j - 1) size in
      let jeast := mod_ (j + 1) size in
      let inorth := mod_ (i - 1) size in
      let isouth := mod_ (i + 1) size in
      let out := N_INC LDA out inorth jwest in
      let out := N_INC LDA out inorth j in
      let out := N_INC LDA out inorth jeast in
      let out := N_INC LDA out i jwest in
      let out := N_INC LDA out i jeast in
      let out := N_INC LDA out isouth jwest in
      let out := N_INC LDA out isouth j in
      let out := N_INC LDA out isouth jeast in
      Buffers out (inboard m)
    else m.

(** The update the worker inlines for a cell of its two-row margins: the
    same tests on the current buffer, then [kill_cell] or [spawn_cell] on
    the next buffer (between lock and unlock of the boundary mutex). *)
Definition margin_cell (LDA : Z) (m : buffers) (i j nrows : Z) : buffers :=
  if truthy (ALIVE (BOARD LDA (inboard m) i j)) then
    if TOKILL (BOARD LDA (inboard m) i j) then
      Buffers (kill_cell LDA (outboard m) i j nrows) (inboard m)
    else m
  else
    if TOSPAWN (BOARD LDA (inboard m) i j) then
      Buffers (spawn_cell LDA (outboard m) i j nrows) (inboard m)
    else m.

(** ** The board codec *)

(** The eight increments [preprocessing_board] performs around an alive
    cell. *)
Definition preprocess_cell (LDA : Z) (brd : board) (i j size : Z) : board :=
  if truthy (ALIVE (BOARD LDA brd i j)) then
    let jwest := mod_ (j - 1) size in
    let jeast := mod_ (j + 1) size in
    let inorth := mod_ (i - 1) size in
    let isouth := mod_ (i + 1) size in
    let brd := N_INC LDA brd inorth jwest in
    let brd := N_INC LDA brd inorth j in
    let brd := N_INC LDA brd inorth jeast in
    let brd := N_INC LDA brd i jwest in
    let brd := N_INC LDA brd i jeast in
    let brd := N_INC LDA brd isouth jwest in
    let brd := N_INC LDA brd isouth j in
    let brd := N_INC LDA brd isouth jeast in
    brd
  else brd.

(** [for (x = lo; x < hi; x++)]: the values [x] takes. *)
Definition for_range (lo hi : Z) : list Z := seqZ lo (hi - lo).

(** [preprocessing_board] works in place on [inboard] and ends by copying
    it over [outboard]. *)
Definition preprocessing_board (LDA : Z) (m : buffers) (size : Z) : buffers :=
  let brd := inboard m in
  let total_size := size * size in
  let brd :=
    foldl (λ brd i, if peek brd i =? 1 then poke brd i (SPAWN 0) else brd)
          brd (for_range 0 total_size) in
  let brd :=
    foldl (λ brd i,
             foldl (λ brd j, preprocess_cell LDA brd i j size)
                   brd (for_range 0 size))
          brd (for_range 0 size) in
  Buffers (memmove (outboard m) brd (size * size)) brd.

Definition postprocessing_board (brd : board) (nrows ncols : Z) : board :=
  let total_size := nrows * ncols in
  foldl (λ brd i, poke brd i (ALIVE (peek brd i)))
        brd (for_range 0 total_size).

(** ** The worker threads *)

(** One cell update of a worker: under a boundary mutex, or unlocked. *)
Inductive step :=
  | Locked (lock : Z) (i j : Z)
  | Unlocked (i j : Z).

Definition step_cell (s : step) : Z * Z :=
  match s with Locked _ i j => (i, j) | Unlocked i j => (i, j) end.

Definition exec_step (LDA nrows : Z) (m : buffers) (s : step) : buffers :=
  match s with
  | Locked _ i j => margin_cell LDA m i j nrows
  | Unlocked i j => do_cell LDA m i j nrows
  end.

(** The scheduler interleaves the workers' updates: each number in the
    schedule names the worker that performs its next update; a number that
    names no worker, or one that has finished, is skipped, and when the
    schedule is exhausted the workers finish one after the other.  An update
    is one step: margin updates hold a mutex, and an unlocked update touches
    rows no other worker touches when slices have four rows or more. *)
Fixpoint interleave (sched : list nat) (threads : list (list step)) : list step :=
  match sched with
  | [] => concat threads
  | t :: sched =>
      match threads !! t with
      | Some (s :: rest) => s :: interleave sched (<[t := rest]> threads)
      | _ => interleave sched threads
      end
  end.

Section engine.
(** [NUM_THREADS] is a constant of the missing life.h. *)
Variable NUM_THREADS : Z.
(** [sequential_game_of_life] is defined outside the sources; it returns a
    pointer to a buffer, or [None] for a null pointer. *)
Variable sequential_game_of_life : board → board → Z → Z → Z → option board.

Definition slice_size (nrows : Z) : Z := Z.quot nrows NUM_THREADS.
Definition slice_start (nrows ith_slice : Z) : Z := ith_slice * slice_size nrows.
Definition slice_end (nrows ith_slice : Z) : Z :=
  slice_start nrows ith_slice + slice_size nrows.

(** The three row loops of the worker, for one column. *)
Definition worker_column (nrows ith_slice j : Z) : list step :=
  let start := slice_start nrows ith_slice in
  let end_ := slice_end nrows ith_slice in
  ((λ i, Locked ith_slice i j) <$> for_range start (start + 2))
  ++ ((λ i, Unlocked i j) <$> for_range (start + 2) (end_ - 2))
  ++ ((λ i, Locked (Z.rem (ith_slice + 1) NUM_THREADS) i j)
        <$> for_range (end_ - 2) end_).

(** The updates of one worker in one generation, in program order. *)
Definition worker_updates (nrows ncols ith_slice : Z) : list step :=
  for_range 0 ncols ≫= worker_column nrows ith_slice.

(** The copy between the two barriers: every worker copies its band of
    the next buffer back into the current one. *)
Definition worker_copy (nrows ncols : Z) (m : buffers) (ith_slice : Z) : buffers :=
  Buffers (outboard m)
          (memcpy_at (inboard m) (outboard m)
                     (slice_start nrows ith_slice * ncols)
                     (slice_size nrows * ncols)).

(** One generation of all workers: the interleaved updates, the first
    barrier, the copies, the second barrier. *)
Definition generation (LDA nrows ncols : Z) (sched : list nat) (m : buffers)
  : buffers :=
  let threads := worker_updates nrows ncols <$> for_range 0 NUM_THREADS in
  let m := foldl (exec_step LDA nrows) m (interleave sched threads) in
  foldl (worker_copy nrows ncols) m (for_range 0 NUM_THREADS).

(** [for (curgen = 0; curgen < gens_max; ++curgen)]; [sched curgen] is
    the interleaving of generation [curgen]. *)
Definition generations (LDA nrows ncols gens_max : Z) (sched : nat → list nat)
    (m : buffers) : buffers :=
  foldl (λ m curgen, generation LDA nrows ncols (sched curgen) m)
        m (seq 0 (Z.to_nat gens_max)).

Definition parallel_game_of_life (sched : nat → list nat)
    (outboard0 inboard0 : board) (nrows ncols gens_max : Z) : board :=
  let LDA := nrows in
  let m := preprocessing_board LDA (Buffers outboard0 inboard0) nrows in
  let m := generations LDA nrows ncols gens_max sched m in
  postprocessing_board (outboard m) LDA LDA.

Definition game_of_life (sched : nat → list nat)
    (outboard0 inboard0 : board) (nrows ncols gens_max : Z) : option board :=
  if nrows <? 32 then
    sequential_game_of_life outboard0 inboard0 nrows ncols gens_max
  else if (10000 <? nrows) || (10000 <? ncols) then None
  else Some (parallel_game_of_life sched outboard0 inboard0 nrows ncols gens_max).
End engine.

(** ** The reference: Conway's rules recomputed from scratch *)

Definition offsets : list (Z * Z) :=
  [(-1, -1); (-1, 0); (-1, 1); (0, -1); (0, 1); (1, -1); (1, 0); (1, 1)].

(** The eight toroidal neighbours of [(i, j)] on an [n]-by-[n] torus. *)
Definition neighbours (n i j : Z) : list (Z * Z) :=
  (λ d, ((i + d.1) `mod` n, (j + d.2) `mod` n)) <$> offsets.

Fixpoint sum_list (l : list Z) : Z :=
  match l with [] => 0 | x :: l => x + sum_list l end.

(** The number of alive neighbours of [(i, j)] in a plain 0/1 board. *)
Definition alive_neighbours (n : Z) (plain : board) (i j : Z) : Z :=
  sum_list ((λ p, BOARD n plain p.1 p.2) <$> neighbours n i j).

Definition naive_cell (n : Z) (plain : board) (i j : Z) : Z :=
  let s := alive_neighbours n plain i j in
  if BOARD n plain i j =? 1
  then (if (s =? 2) || (s =? 3) then 1 else 0)
  else (if s =? 3 then 1 else 0).

Definition naive_generation (n : Z) (plain : board) : board :=
  (λ z, naive_cell n plain (z `div` n) (z `mod` n)) <$> for_range 0 (n * n).

Definition naive_life (n : Z) (g : nat) (plain : board) : board :=
  Nat.iter g (naive_generation n) plain.

(** A plain board holds only 0 and 1. *)
Definition plainb (b : board) : bool := forallb (λ c, (c =? 0) || (c =? 1)) b.

(** ** Test boards *)

Definition empty_board (n : Z) : board := replicate (Z.to_nat (n * n)) 0.

Definition set_alive (n : Z) (b : board) (p : Z * Z) : board :=
  BOARD_store n b p.1 p.2 1.

Definition blinker32 : board :=
  foldl (set_alive 32) (empty_board 32) [(5, 4); (5, 5); (5, 6)].

(** ** Vocabulary of the statements *)

(** The eight decrements (increments) of [kill_cell] ([spawn_cell]), as a
    loop over a list of cells. *)
Definition dec_all (LDA : Z) (l : list (Z * Z)) (b : board) : board :=
  foldl (λ b p, N_DEC LDA b p.1 p.2) b l.

Definition inc_all (LDA : Z) (l : list (Z * Z)) (b : board) : board :=
  foldl (λ b p, N_INC LDA b p.1 p.2) b l.

Definition in_grid (n i j : Z) : Prop := 0 ≤ i < n ∧ 0 ≤ j < n.

(** How often a cell occurs in a list of cells. *)
Definition occ (p : Z * Z) (l : list (Z * Z)) : Z :=
  sum_list ((λ q, if decide (q = p) then 1 else 0) <$> l).

(** How often a row occurs in a list of rows. *)
Definition visits (i : Z) (rows : list Z) : nat :=
  length (filter (λ r, r = i) rows).

(** The rows a worker updates in one column, in program order. *)
Definition column_rows (NUM_THREADS nrows ith_slice j : Z) : list Z :=
  (λ s, (step_cell s).1) <$> worker_column NUM_THREADS nrows ith_slice j.

(** A configuration (alive or dead for every cell) with one cell changed. *)
Definition upd (f : Z * Z → Z) (p : Z * Z) (v : Z) : Z * Z → Z :=
  λ q, if decide (q = p) then v else f q.

(** [grid_rep n f a b]: the board [b] holds, in every cell, the flag given
    by [f] and, as its count, the number of neighbours that [a] marks. *)
Definition grid_rep (n : Z) (f a : Z * Z → Z) (b : board) : Prop :=
  length b = Z.to_nat (n * n)
  ∧ (∀ p, 0 ≤ f p ≤ 1) ∧ (∀ p, 0 ≤ a p ≤ 1)
  ∧ ∀ i j, in_grid n i j →
      BOARD n b i j = 16 * f (i, j) + sum_list (a <$> neighbours n i j).

(** Conway's rule on a flag and a count. *)
Definition life_rule (alive count : Z) : Z :=
  if alive =? 1
  then (if (count =? 2) || (count =? 3) then 1 else 0)
  else (if count =? 3 then 1 else 0).

(** The decoded board. *)
Definition decode (b : board) : board := ALIVE <$> b.

(** The facts about the encoding that are checked on all 32 values. *)
Definition cell_checks (v : Z) : bool :=
  (ALIVE v =? v `div` 16) && (NEIGHBOURS v =? v `mod` 16)
  && (SPAWN v =? v `mod` 16 + 16) && (KILL v =? v `mod` 16).

(** The neighbours as the code names them, in the order it visits them. *)
Definition code_neighbours (size i j : Z) : list (Z * Z) :=
  let jwest := mod_ (j - 1) size in
  let jeast := mod_ (j + 1) size in
  let inorth := mod_ (i - 1) size in
  let isouth := mod_ (i + 1) size in
  [(inorth, jwest); (inorth, j); (inorth, jeast); (i, jwest); (i, jeast);
   (isouth, jwest); (isouth, j); (isouth, jeast)].

(** The flag of a cell after its update, read off the current buffer. *)
Definition next_flag (n : Z) (current : board) (p : Z * Z) : Z :=
  let cell := BOARD n current p.1 p.2 in
  if truthy (ALIVE cell)
  then (if TOKILL cell then 0 else 1)
  else (if TOSPAWN cell then 1 else 0).

(** What the first loop of [preprocessing_board] does to one cell. *)
Definition encode_flag (v : Z) : Z := if v =? 1 then SPAWN 0 else v.

(** The configuration that marks the alive cells of a plain board whose
    offset is below [k]: those [preprocessing_board] has counted so far. *)
Definition counted (n : Z) (plain : board) (k : Z) : Z * Z → Z :=
  λ p, if decide (in_grid n p.1 p.2 ∧ BOARD_offset n p.1 p.2 < k)
       then BOARD n plain p.1 p.2 else 0.

(** Stand-ins for the external sequential implementation: one that returns
    its result buffer, one that returns a null pointer. *)
Definition sequential_returns_outboard
    (outboard0 inboard0 : board) (nrows ncols gens_max : Z) : option board :=
  Some outboard0.

Definition sequential_returns_null
    (outboard0 inboard0 : board) (nrows ncols gens_max : Z) : option board :=
  None.

(** Two schedules: the workers one after the other, and a mixed one. *)
Definition one_by_one : nat → list nat := λ _, [].

Definition mixed : nat → list nat :=
  λ g, if Nat.even g then [3; 1; 0; 7; 7; 2; 5; 0; 1]%nat else [6; 6; 4; 0]%nat.

(** A plain 2-by-2 board. *)
Definition diagonal2 : board := [1; 0; 0; 1].



(** A buffer of C characters. *)
Definition charb (b : board) : bool :=
  forallb (λ c, (-128 <=? c) && (c <=? 127)) b.

(** The facts about the flag macros that are checked on all 256
    characters. *)
Definition char_checks (v : Z) : bool :=
  ((ALIVE v =? 0) || (ALIVE v =? 1))
  && (-128 <=? KILL v) && (KILL v <=? 127)
  && (-128 <=? SPAWN v) && (SPAWN v <=? 127)
  && (if ALIVE v =? 1 then SPAWN (KILL v) =? v else KILL (SPAWN v) =? v).

(** A board whose counts are exact: every cell holds its flag in bit 4 and,
    below it, the number of its alive toroidal neighbours. *)
Definition well_encoded (n : Z) (b : board) : Prop :=
  length b = Z.to_nat (n * n)
  ∧ ∀ i j, in_grid n i j →
      BOARD n b i j
      = 16 * ALIVE (BOARD n b i j) + alive_neighbours n (decode b) i j.

(** A 32-by-32 board of arbitrary characters. *)
Definition noise32 : board :=
  (λ z, to_char (37 * z + 11)) <$> for_range 0 (32 * 32).



(** ** Characters, buffers and offsets *)

Lemma length_poke b z v : length (poke b z v) = length b.
Proof. unfold poke. case_match; [apply length_insert | done]. Qed.

Lemma peek_poke_eq b z v :
  0 ≤ z < Z.of_nat (length b) → peek (poke b z v) z = v.
Proof.
  intros Hz. unfold peek, poke.
  destruct (Z.leb_spec 0 z); [|lia].
  rewrite list_lookup_insert_eq by lia. done.
Qed.

Lemma peek_poke_ne b z z' v : z ≠ z' → peek (poke b z v) z' = peek b z'.
Proof.
  intros Hne. unfold peek, poke.
  destruct (Z.leb_spec 0 z'), (Z.leb_spec 0 z); try done.
  rewrite list_lookup_insert_ne by lia. done.
Qed.

Lemma poke_peek_id b z : poke b z (peek b z) = b.
Proof.
  unfold peek, poke. destruct (Z.leb_spec 0 z); [|done].
  destruct (b !! Z.to_nat z) as [v|] eqn:Hv.
  - by apply list_insert_id.
  - apply list_insert_ge. by apply lookup_ge_None.
Qed.

Lemma board_ext (b1 b2 : board) :
  length b1 = length b2 →
  (∀ z, 0 ≤ z < Z.of_nat (length b1) → peek b1 z = peek b2 z) →
  b1 = b2.
Proof.
  intros Hlen Hpt. apply list_eq. intros k.
  destruct (decide (k < length b1)%nat) as [Hlt|Hge].
  - specialize (Hpt (Z.of_nat k)). unfold peek in Hpt.
    destruct (Z.leb_spec 0 (Z.of_nat k)); [|lia].
    rewrite Nat2Z.id in Hpt.
    destruct (lookup_lt_is_Some_2 b1 k Hlt) as [v1 Hv1].
    destruct (lookup_lt_is_Some_2 b2 k ltac:(lia)) as [v2 Hv2].
    rewrite Hv1, Hv2 in Hpt |- *. f_equal. apply Hpt. lia.
  - rewrite !lookup_ge_None_2; [done | lia | lia].
Qed.

Lemma offset_range n i j :
  in_grid n i j → 0 ≤ BOARD_offset n i j < n * n.
Proof. unfold in_grid, BOARD_offset. nia. Qed.

Lemma offset_inj n i j r c :
  in_grid n i j → in_grid n r c →
  BOARD_offset n i j = BOARD_offset n r c → (i, j) = (r, c).
Proof.
  unfold in_grid, BOARD_offset. intros [? ?] [? ?] Heq.
  assert (i = r).
  { destruct (Z.lt_trichotomy i r) as [Hlt|[Heq'|Hgt]]; [|done|].
    - assert (i * n + n ≤ r * n) by nia. lia.
    - assert (r * n + n ≤ i * n) by nia. lia. }
  subst. f_equal. lia.
Qed.

Lemma offset_split n z :
  0 < n → 0 ≤ z < n * n →
  in_grid n (z `div` n) (z `mod` n) ∧ z = BOARD_offset n (z `div` n) (z `mod` n).
Proof.
  intros Hn Hz. unfold in_grid, BOARD_offset.
  pose proof (Z.mod_pos_bound z n ltac:(lia)).
  pose proof (Z.div_mod z n ltac:(lia)).
  assert (0 ≤ z `div` n) by (apply Z.div_pos; lia).
  assert (z `div` n < n) by (apply Z.div_lt_upper_bound; lia).
  lia.
Qed.

Lemma BOARD_store_eq n b i j v :
  length b = Z.to_nat (n * n) → in_grid n i j →
  BOARD n (BOARD_store n b i j v) i j = v.
Proof.
  intros Hlen Hg. apply peek_poke_eq.
  pose proof (offset_range _ _ _ Hg). lia.
Qed.

Lemma BOARD_store_ne n b i j r c v :
  in_grid n i j → in_grid n r c → (r, c) ≠ (i, j) →
  BOARD n (BOARD_store n b i j v) r c = BOARD n b r c.
Proof.
  intros Hg Hg' Hne. apply peek_poke_ne.
  intros Heq. apply Hne. symmetry. by eapply offset_inj.
Qed.

Lemma length_BOARD_store n b i j v : length (BOARD_store n b i j v) = length b.
Proof. apply length_poke. Qed.

Lemma to_char_id z : -128 ≤ z ≤ 127 → to_char z = z.
Proof. intros Hz. unfold to_char. rewrite Z.mod_small; lia. Qed.

(** ** The encoded cell *)

Lemma cell_checks_ok v : 0 ≤ v < 32 → cell_checks v = true.
Proof.
  intros Hv.
  assert (Hall : forallb cell_checks (seqZ 0 32) = true) by reflexivity.
  rewrite forallb_forall in Hall. apply Hall.
  apply list_elem_of_In, elem_of_seqZ. lia.
Qed.

Lemma cell_fields f c :
  0 ≤ f ≤ 1 → 0 ≤ c ≤ 15 →
  ALIVE (16 * f + c) = f ∧ NEIGHBOURS (16 * f + c) = c
  ∧ SPAWN (16 * f + c) = 16 * 1 + c ∧ KILL (16 * f + c) = 16 * 0 + c.
Proof.
  intros Hf Hc. pose proof (cell_checks_ok (16 * f + c) ltac:(lia)) as Hk.
  unfold cell_checks in Hk. rewrite !andb_true_iff, !Z.eqb_eq in Hk.
  destruct Hk as [[[-> ->] ->] ->].
  assert ((16 * f + c) `div` 16 = f) as -> by (symmetry; apply (Z.div_unique _ _ _ c); lia).
  assert ((16 * f + c) `mod` 16 = c) as -> by (symmetry; apply (Z.mod_unique _ _ f); lia).
  lia.
Qed.

(** ** Increments and decrements, cell by cell *)

Lemma occ_cons p q l :
  occ p (q :: l) = (if decide (q = p) then 1 else 0) + occ p l.
Proof. done. Qed.

Lemma occ_nonneg p l : 0 ≤ occ p l.
Proof.
  induction l as [|q l IH]; [done|]. rewrite occ_cons. case_decide; lia.
Qed.

Lemma length_N_INC n b i j : length (N_INC n b i j) = length b.
Proof. apply length_poke. Qed.

Lemma length_N_DEC n b i j : length (N_DEC n b i j) = length b.
Proof. apply length_poke. Qed.

Lemma length_inc_all n l b : length (inc_all n l b) = length b.
Proof.
  revert b. induction l as [|p l IH]; intros b; [done|].
  simpl. rewrite IH. apply length_N_INC.
Qed.

Lemma length_dec_all n l b : length (dec_all n l b) = length b.
Proof.
  revert b. induction l as [|p l IH]; intros b; [done|].
  simpl. rewrite IH. apply length_N_DEC.
Qed.

Lemma BOARD_N_INC n b i j r c :
  length b = Z.to_nat (n * n) → in_grid n i j → in_grid n r c →
  BOARD n (N_INC n b i j) r c
  = if decide ((i, j) = (r, c)) then to_char (BOARD n b r c + 1) else BOARD n b r c.
Proof.
  intros Hlen Hg Hg'. unfold N_INC. case_decide as Heq.
  - injection Heq as -> ->. by rewrite BOARD_store_eq.
  - rewrite BOARD_store_ne; [done..|]. congruence.
Qed.

Lemma BOARD_N_DEC n b i j r c :
  length b = Z.to_nat (n * n) → in_grid n i j → in_grid n r c →
  BOARD n (N_DEC n b i j) r c
  = if decide ((i, j) = (r, c)) then to_char (BOARD n b r c - 1) else BOARD n b r c.
Proof.
  intros Hlen Hg Hg'. unfold N_DEC. case_decide as Heq.
  - injection Heq as -> ->. by rewrite BOARD_store_eq.
  - rewrite BOARD_store_ne; [done..|]. congruence.
Qed.

Lemma BOARD_inc_all n l : ∀ b r c,
  length b = Z.to_nat (n * n) →
  Forall (λ p, in_grid n p.1 p.2) l → in_grid n r c →
  -128 ≤ BOARD n b r c → BOARD n b r c + occ (r, c) l ≤ 127 →
  BOARD n (inc_all n l b) r c = BOARD n b r c + occ (r, c) l.
Proof.
  induction l as [|[i j] l IH]; intros b r c Hlen Hl Hg Hlo Hhi.
  - unfold occ. simpl. lia.
  - apply Forall_cons in Hl as [Hp Hl]. simpl in Hp.
    rewrite occ_cons in Hhi |- *. pose proof (occ_nonneg (r, c) l).
    change (inc_all n ((i, j) :: l) b) with (inc_all n l (N_INC n b i j)).
    rewrite IH; [|by rewrite length_N_INC|done|done|..];
      rewrite BOARD_N_INC by done; destruct (decide ((i, j) = (r, c)));
      rewrite ?to_char_id; lia.
Qed.

Lemma BOARD_dec_all n l : ∀ b r c,
  length b = Z.to_nat (n * n) →
  Forall (λ p, in_grid n p.1 p.2) l → in_grid n r c →
  BOARD n b r c ≤ 127 → -128 ≤ BOARD n b r c - occ (r, c) l →
  BOARD n (dec_all n l b) r c = BOARD n b r c - occ (r, c) l.
Proof.
  induction l as [|[i j] l IH]; intros b r c Hlen Hl Hg Hhi Hlo.
  - unfold occ. simpl. lia.
  - apply Forall_cons in Hl as [Hp Hl]. simpl in Hp.
    rewrite occ_cons in Hlo |- *. pose proof (occ_nonneg (r, c) l).
    change (dec_all n ((i, j) :: l) b) with (dec_all n l (N_DEC n b i j)).
    rewrite IH; [|by rewrite length_N_DEC|done|done|..];
      rewrite BOARD_N_DEC by done; destruct (decide ((i, j) = (r, c)));
      rewrite ?to_char_id; lia.
Qed.

(** ** Sums over the neighbourhood *)

Lemma sum_upd a p v l :
  sum_list (upd a p v <$> l) = sum_list (a <$> l) + (v - a p) * occ p l.
Proof.
  induction l as [|q l IH]; [unfold occ; simpl; lia|].
  rewrite occ_cons, !fmap_cons. cbn [sum_list]. rewrite IH. unfold upd at 1.
  destruct (decide (q = p)); subst; lia.
Qed.

Lemma sum_bounds (a : Z * Z → Z) l :
  (∀ p, 0 ≤ a p ≤ 1) → 0 ≤ sum_list (a <$> l) ≤ Z.of_nat (length l).
Proof.
  intros Ha. induction l as [|q l IH]; [simpl; lia|].
  rewrite fmap_cons. cbn [sum_list length]. specialize (Ha q). lia.
Qed.

Lemma sum_ext (a a' : Z * Z → Z) l :
  Forall (λ p, a p = a' p) l → sum_list (a <$> l) = sum_list (a' <$> l).
Proof.
  induction 1 as [|q l Hq _ IH]; [done|].
  rewrite !fmap_cons. cbn [sum_list]. by rewrite Hq, IH.
Qed.

Lemma neighbours_in_grid n i j :
  0 < n → Forall (λ p, in_grid n p.1 p.2) (neighbours n i j).
Proof.
  intros Hn. unfold neighbours. apply Forall_fmap, Forall_forall.
  intros d _. simpl. unfold in_grid.
  split; apply Z.mod_pos_bound; lia.
Qed.

Lemma shift_back n x y d e :
  0 < n → 0 ≤ x < n → 0 ≤ y < n → d + e = 0 →
  (x + d) `mod` n = y → (y + e) `mod` n = x.
Proof.
  intros Hn Hx Hy Hde <-.
  rewrite Z.add_mod_idemp_l by lia.
  replace (x + d + e) with x by lia. apply Z.mod_small. lia.
Qed.

Lemma indicator_flip n i j r c d1 d2 e1 e2 :
  0 < n → in_grid n i j → in_grid n r c → d1 + e1 = 0 → d2 + e2 = 0 →
  (if decide (((i + d1) `mod` n, (j + d2) `mod` n) = (r, c)) then 1 else 0)
  = (if decide (((r + e1) `mod` n, (c + e2) `mod` n) = (i, j)) then 1 else 0 : Z).
Proof.
  intros Hn [Hi Hj] [Hr Hc] H1 H2.
  destruct (decide (_ = (r, c))) as [Heq|Hne],
           (decide (_ = (i, j))) as [Heq'|Hne']; try done.
  - exfalso. apply Hne'. injection Heq as Ha Hb.
    f_equal; eapply shift_back; eauto.
  - exfalso. apply Hne. injection Heq' as Ha Hb.
    f_equal; eapply shift_back; eauto; lia.
Qed.

(** A cell is as often a neighbour of another as the other is of it. *)
Lemma occ_neighbours_sym n i j r c :
  0 < n → in_grid n i j → in_grid n r c →
  occ (r, c) (neighbours n i j) = occ (i, j) (neighbours n r c).
Proof.
  intros Hn Hg Hg'. unfold occ, neighbours, offsets. simpl.
  rewrite (indicator_flip n i j r c (-1) (-1) 1 1) by (done || lia).
  rewrite (indicator_flip n i j r c (-1) 0 1 0) by (done || lia).
  rewrite (indicator_flip n i j r c (-1) 1 1 (-1)) by (done || lia).
  rewrite (indicator_flip n i j r c 0 (-1) 0 1) by (done || lia).
  rewrite (indicator_flip n i j r c 0 1 0 (-1)) by (done || lia).
  rewrite (indicator_flip n i j r c 1 (-1) (-1) 1) by (done || lia).
  rewrite (indicator_flip n i j r c 1 0 (-1) 0) by (done || lia).
  rewrite (indicator_flip n i j r c 1 1 (-1) (-1)) by (done || lia).
  lia.
Qed.

(** ** The neighbours the code visits *)

Lemma code_neighbours_eq size i j :
  0 ≤ i < size → 0 ≤ j < size → code_neighbours size i j = neighbours size i j.
Proof.
  intros Hi Hj. unfold neighbours, offsets. cbn [fmap list_fmap fst snd].
  rewrite !Z.add_0_r, !(Z.mod_small i), !(Z.mod_small j) by lia.
  reflexivity.
Qed.

Lemma kill_cell_fold LDA out i j size :
  kill_cell LDA out i j size
  = dec_all LDA (code_neighbours size i j)
      (BOARD_store LDA out i j (KILL (BOARD LDA out i j))).
Proof. reflexivity. Qed.

Lemma spawn_cell_fold LDA out i j size :
  spawn_cell LDA out i j size
  = inc_all LDA (code_neighbours size i j)
      (BOARD_store LDA out i j (SPAWN (BOARD LDA out i j))).
Proof. reflexivity. Qed.

Lemma do_cell_cases LDA m i j size :
  do_cell LDA m i j size
  = let cell := BOARD LDA (inboard m) i j in
    if truthy (ALIVE cell) then
      if TOKILL cell
      then Buffers (kill_cell LDA (outboard m) i j size) (inboard m) else m
    else
      if TOSPAWN cell
      then Buffers (spawn_cell LDA (outboard m) i j size) (inboard m) else m.
Proof. reflexivity. Qed.

(** ** Updates that keep a board consistent *)

Lemma grid_rep_ext n f f' a a' b :
  (∀ p, f p = f' p) → (∀ p, a p = a' p) →
  grid_rep n f a b → grid_rep n f' a' b.
Proof.
  intros Hf Ha (Hlen & Hf01 & Ha01 & Hb). split; [done|].
  split; [intros p; rewrite <- Hf; apply Hf01|].
  split; [intros p; rewrite <- Ha; apply Ha01|].
  intros i j Hg. rewrite (Hb i j Hg), Hf. f_equal.
  apply sum_ext, Forall_forall. intros p _. apply Ha.
Qed.

Lemma upd_01 f p v : (∀ q, 0 ≤ f q ≤ 1) → 0 ≤ v ≤ 1 → ∀ q, 0 ≤ upd f p v q ≤ 1.
Proof. intros Hf Hv q. unfold upd. case_decide; [done | apply Hf]. Qed.

Lemma length_neighbours n i j : length (neighbours n i j) = 8%nat.
Proof. reflexivity. Qed.

Lemma grid_rep_value n f a b i j :
  grid_rep n f a b → in_grid n i j →
  ∃ c, BOARD n b i j = 16 * f (i, j) + c ∧ 0 ≤ c ≤ 8
       ∧ c = sum_list (a <$> neighbours n i j) ∧ 0 ≤ f (i, j) ≤ 1.
Proof.
  intros (Hlen & Hf01 & Ha01 & Hb) Hg. eexists. split; [by apply Hb|].
  pose proof (sum_bounds a (neighbours n i j) Ha01) as Hs.
  rewrite length_neighbours in Hs. split; [lia|]. split; [done | apply Hf01].
Qed.

(** Setting the flag of a cell. *)
Lemma grid_rep_flag n f a b i j v :
  0 < n → grid_rep n f a b → in_grid n i j → 0 ≤ v ≤ 1 →
  grid_rep n (upd f (i, j) v) a
    (BOARD_store n b i j (16 * v + sum_list (a <$> neighbours n i j))).
Proof.
  intros Hn Hrep Hg Hv. pose proof Hrep as (Hlen & Hf01 & Ha01 & Hb).
  split; [by rewrite length_BOARD_store|].
  split; [by apply upd_01|]. split; [done|].
  intros r c Hg'. unfold upd. case_decide as Heq.
  - injection Heq as -> ->. by rewrite BOARD_store_eq.
  - rewrite BOARD_store_ne by done. by apply Hb.
Qed.

(** Counting one more neighbour around a cell that was not counted. *)
Lemma grid_rep_inc n f a b i j :
  0 < n → grid_rep n f a b → in_grid n i j → a (i, j) = 0 →
  grid_rep n f (upd a (i, j) 1) (inc_all n (neighbours n i j) b).
Proof.
  intros Hn Hrep Hg Ha0. pose proof Hrep as (Hlen & Hf01 & Ha01 & Hb).
  split; [by rewrite length_inc_all|]. split; [done|].
  split; [by apply upd_01|].
  intros r c Hg'.
  pose proof (sum_bounds (upd a (i, j) 1) (neighbours n r c)
                (upd_01 a (i, j) 1 Ha01 ltac:(lia))) as Hs.
  rewrite length_neighbours in Hs. rewrite sum_upd, Ha0 in Hs.
  rewrite sum_upd, Ha0.
  destruct (grid_rep_value n f a b r c Hrep Hg') as (k & Hk & Hk8 & -> & Hf).
  rewrite <- (occ_neighbours_sym n i j r c) in * by done.
  rewrite BOARD_inc_all; [rewrite Hk; lia | done | by apply neighbours_in_grid
                         | done | lia | lia].
Qed.

(** Counting one neighbour less around a cell that was counted. *)
Lemma grid_rep_dec n f a b i j :
  0 < n → grid_rep n f a b → in_grid n i j → a (i, j) = 1 →
  grid_rep n f (upd a (i, j) 0) (dec_all n (neighbours n i j) b).
Proof.
  intros Hn Hrep Hg Ha1. pose proof Hrep as (Hlen & Hf01 & Ha01 & Hb).
  split; [by rewrite length_dec_all|]. split; [done|].
  split; [by apply upd_01|].
  intros r c Hg'.
  pose proof (sum_bounds (upd a (i, j) 0) (neighbours n r c)
                (upd_01 a (i, j) 0 Ha01 ltac:(lia))) as Hs.
  rewrite length_neighbours in Hs. rewrite sum_upd, Ha1 in Hs.
  rewrite sum_upd, Ha1.
  destruct (grid_rep_value n f a b r c Hrep Hg') as (k & Hk & Hk8 & -> & Hf).
  rewrite <- (occ_neighbours_sym n i j r c) in * by done.
  rewrite BOARD_dec_all; [rewrite Hk; lia | done | by apply neighbours_in_grid
                         | done | lia | lia].
Qed.

(** ** One update of the engine *)

Lemma next_flag_rule n f b i j :
  grid_rep n f f b → in_grid n i j →
  next_flag n b (i, j)
  = life_rule (f (i, j)) (sum_list (f <$> neighbours n i j)).
Proof.
  intros Hrep Hg.
  destruct (grid_rep_value n f f b i j Hrep Hg) as (k & Hk & Hk8 & <- & Hf).
  unfold next_flag, TOKILL, TOSPAWN, truthy, life_rule. cbn [fst snd].
  rewrite Hk.
  destruct (cell_fields (f (i, j)) k Hf ltac:(lia)) as (-> & -> & _).
  assert (f (i, j) = 0 ∨ f (i, j) = 1) as [-> | ->] by lia; simpl;
    destruct (k =? 2), (k =? 3); reflexivity.
Qed.

Lemma next_flag_01 n b p : 0 ≤ next_flag n b p ≤ 1.
Proof. unfold next_flag. repeat case_match; lia. Qed.

Lemma do_cell_rep n f g inb out i j :
  0 < n → grid_rep n f f inb → grid_rep n g g out → in_grid n i j →
  g (i, j) = f (i, j) →
  let m := do_cell n (Buffers out inb) i j n in
  inboard m = inb
  ∧ grid_rep n (upd g (i, j) (next_flag n inb (i, j)))
               (upd g (i, j) (next_flag n inb (i, j))) (outboard m).
Proof.
  intros Hn Hin Hout Hg Hgf.
  destruct (grid_rep_value n f f inb i j Hin Hg) as (k & Hk & Hk8 & _ & Hf).
  destruct (grid_rep_value n g g out i j Hout Hg) as (k' & Hk' & Hk8' & Hsum & _).
  destruct (cell_fields (f (i, j)) k Hf ltac:(lia)) as (Hal & Hnb & _).
  destruct (cell_fields (f (i, j)) k' Hf ltac:(lia)) as (_ & _ & Hsp & Hki).
  rewrite <- Hgf in Hsp, Hki. rewrite <- Hk' in Hsp, Hki.
  assert (Hsame : ∀ v, v = g (i, j) → grid_rep n (upd g (i, j) v) (upd g (i, j) v) out).
  { intros v ->. eapply grid_rep_ext; [| |exact Hout];
      intros q; unfold upd; case_decide; congruence. }
  rewrite <- Hk in Hal. clear Hnb.
  rewrite do_cell_cases. unfold next_flag, truthy. cbn [inboard outboard fst snd].
  rewrite Hal.
  assert (f (i, j) = 0 ∨ f (i, j) = 1) as [Hd | Ha] by lia.
  - rewrite Hd. cbn [Z.eqb negb].
    destruct (TOSPAWN (BOARD n inb i j)); cbn [inboard outboard].
    + split; [done|]. rewrite spawn_cell_fold, code_neighbours_eq by apply Hg.
      rewrite Hsp, Hsum. apply grid_rep_inc; [done| |done|].
      * apply grid_rep_flag; [done..|lia].
      * congruence.
    + split; [done|]. apply Hsame. congruence.
  - rewrite Ha. cbn [Z.eqb negb].
    destruct (TOKILL (BOARD n inb i j)); cbn [inboard outboard].
    + split; [done|]. rewrite kill_cell_fold, code_neighbours_eq by apply Hg.
      rewrite Hki, Hsum. apply grid_rep_dec; [done| |done|].
      * apply grid_rep_flag; [done..|lia].
      * congruence.
    + split; [done|]. apply Hsame. congruence.
Qed.

Lemma exec_step_do_cell n m s :
  exec_step n n m s = do_cell n m (step_cell s).1 (step_cell s).2 n.
Proof. by destruct s. Qed.

(** The updates of a list of cells, each visited once, in any order. *)
Lemma run_steps_rep n f inb (L : list step) :
  0 < n → grid_rep n f f inb →
  NoDup (step_cell <$> L) →
  Forall (λ p, in_grid n p.1 p.2) (step_cell <$> L) →
  ∀ out g,
    grid_rep n g g out →
    (∀ p, p ∈ step_cell <$> L → g p = f p) →
    let m := foldl (exec_step n n) (Buffers out inb) L in
    inboard m = inb
    ∧ ∃ g', grid_rep n g' g' (outboard m)
            ∧ (∀ p, p ∈ step_cell <$> L → g' p = next_flag n inb p)
            ∧ (∀ p, p ∉ step_cell <$> L → g' p = g p).
Proof.
  intros Hn Hin. induction L as [|s L IH]; intros Hnd Hall out g Hout Hold.
  - simpl. split; [done|]. exists g. split; [done|].
    split; [|done]. intros p Hp. by apply elem_of_nil in Hp.
  - rewrite fmap_cons in Hnd, Hall, Hold.
    apply NoDup_cons in Hnd as [Hfresh Hnd].
    apply Forall_cons in Hall as [Hg Hall].
    destruct (step_cell s) as [i j] eqn:Hs. cbn [fst snd] in Hg.
    cbn [foldl]. rewrite exec_step_do_cell, Hs. cbn [fst snd].
    destruct (do_cell_rep n f g inb out i j Hn Hin Hout Hg) as [Hinb Hrep].
    { apply Hold. left. }
    destruct (do_cell n (Buffers out inb) i j n) as [out1 inb1].
    cbn [inboard outboard] in Hinb, Hrep. subst inb1.
    destruct (IH Hnd Hall out1 _ Hrep) as (Hinb & g' & Hrep' & Hnew & Hkeep).
    { intros p Hp. unfold upd. case_decide as Heq; [by subst|].
      apply Hold. by right. }
    split; [done|]. exists g'. split; [done|]. split.
    + intros p Hp. rewrite fmap_cons, Hs in Hp.
      apply elem_of_cons in Hp as [-> | Hp]; [|by apply Hnew].
      rewrite Hkeep by done. unfold upd. by rewrite decide_True.
    + intros p Hp. rewrite fmap_cons, Hs in Hp.
      apply not_elem_of_cons in Hp as [Hne Hp].
      rewrite Hkeep by done. unfold upd. by rewrite decide_False.
Qed.

(** ** The rows and cells a worker visits *)

Lemma for_range_app lo mid hi :
  lo ≤ mid ≤ hi → for_range lo mid ++ for_range mid hi = for_range lo hi.
Proof.
  intros H. unfold for_range.
  replace (hi - lo) with ((mid - lo) + (hi - mid)) by lia.
  rewrite seqZ_app by lia. do 3 f_equal. lia.
Qed.

Lemma elem_of_for_range lo hi x : x ∈ for_range lo hi ↔ lo ≤ x < hi.
Proof. unfold for_range. rewrite elem_of_seqZ. lia. Qed.

Lemma length_for_range lo hi : length (for_range lo hi) = Z.to_nat (hi - lo).
Proof. apply length_seqZ. Qed.

Lemma fmap_id_ext {A} (f : A → A) (l : list A) : (∀ x, f x = x) → f <$> l = l.
Proof.
  intros Hf. induction l as [|x l IH]; [done|]. by rewrite fmap_cons, Hf, IH.
Qed.

Lemma column_rows_parts NT nrows t j :
  column_rows NT nrows t j
  = for_range (slice_start NT nrows t) (slice_start NT nrows t + 2)
    ++ for_range (slice_start NT nrows t + 2) (slice_end NT nrows t - 2)
    ++ for_range (slice_end NT nrows t - 2) (slice_end NT nrows t).
Proof.
  unfold column_rows, worker_column. cbv zeta.
  rewrite !fmap_app, <- !list_fmap_compose.
  by rewrite !fmap_id_ext by done.
Qed.

Lemma column_cells NT nrows t j :
  step_cell <$> worker_column NT nrows t j
  = (λ i, (i, j)) <$> column_rows NT nrows t j.
Proof.
  rewrite column_rows_parts. unfold worker_column. cbv zeta.
  by rewrite !fmap_app, <- !list_fmap_compose.
Qed.

Lemma column_rows_exact NT nrows t j :
  4 ≤ slice_size NT nrows →
  column_rows NT nrows t j
  = for_range (slice_start NT nrows t) (slice_end NT nrows t).
Proof.
  intros Hs. rewrite column_rows_parts. unfold slice_end.
  rewrite !for_range_app; [done | lia..].
Qed.

Lemma concat_fmap_bind {A B} (f : A → list B) (l : list A) :
  concat (f <$> l) = l ≫= f.
Proof. induction l as [|x l IH]; [done|]. rewrite fmap_cons. simpl. by rewrite IH. Qed.

Lemma fmap_bind_list {A B C} (g : B → C) (f : A → list B) (l : list A) :
  g <$> (l ≫= f) = l ≫= (λ x, g <$> f x).
Proof.
  induction l as [|x l IH]; [done|].
  rewrite !bind_cons, fmap_app. by rewrite IH.
Qed.

Lemma bind_ext_list {A B} (f g : A → list B) (l : list A) :
  (∀ x, f x = g x) → l ≫= f = l ≫= g.
Proof.
  intros Hfg. induction l as [|x l IH]; [done|]. by rewrite !bind_cons, Hfg, IH.
Qed.

(** The cells all workers update in one generation, in program order. *)
Lemma all_worker_cells NT nrows ncols :
  4 ≤ slice_size NT nrows →
  step_cell <$> concat (worker_updates NT nrows ncols <$> for_range 0 NT)
  = for_range 0 NT ≫= λ t, for_range 0 ncols ≫= λ j,
      (λ i, (i, j)) <$> for_range (slice_start NT nrows t) (slice_end NT nrows t).
Proof.
  intros Hs. rewrite concat_fmap_bind, fmap_bind_list.
  apply bind_ext_list. intros t. unfold worker_updates.
  rewrite fmap_bind_list. apply bind_ext_list. intros j.
  by rewrite column_cells, column_rows_exact.
Qed.

Lemma slices_tile NT n :
  0 < NT → 0 ≤ n → Z.rem n NT = 0 → n = NT * slice_size NT n.
Proof.
  intros HNT Hn Hrem. unfold slice_size.
  pose proof (Z.quot_rem' n NT). lia.
Qed.

Lemma elem_of_all_worker_cells NT n p :
  0 < NT → Z.rem n NT = 0 → 4 ≤ slice_size NT n →
  p ∈ step_cell <$> concat (worker_updates NT n n <$> for_range 0 NT)
  ↔ in_grid n p.1 p.2.
Proof.
  intros HNT Hrem Hs.
  assert (0 ≤ n).
  { destruct (Z.le_gt_cases 0 n) as [|Hneg]; [done|]. exfalso.
    unfold slice_size in Hs. pose proof (Z.quot_opp_l n NT ltac:(lia)).
    pose proof (Z.quot_pos (- n) NT ltac:(lia) ltac:(lia)). lia. }
  pose proof (slices_tile NT n HNT ltac:(done) Hrem) as Hn.
  rewrite all_worker_cells by done. unfold slice_end, slice_start.
  set (s := slice_size NT n) in *. unfold in_grid. split.
  - intros (t & Hp & Ht)%list_elem_of_bind.
    apply list_elem_of_bind in Hp as (j & Hp & Hj).
    apply list_elem_of_fmap in Hp as (i & -> & Hi).
    apply elem_of_for_range in Ht, Hj, Hi. simpl. nia.
  - destruct p as [i j]. simpl. intros [Hi Hj].
    apply list_elem_of_bind. exists (i `div` s). split.
    2:{ apply elem_of_for_range. split; [apply Z.div_pos; lia|].
        apply Z.div_lt_upper_bound; lia. }
    apply list_elem_of_bind. exists j. split; [|apply elem_of_for_range; lia].
    apply list_elem_of_fmap. exists i. split; [done|].
    apply elem_of_for_range.
    pose proof (Z.div_mod i s ltac:(lia)).
    pose proof (Z.mod_pos_bound i s ltac:(lia)). lia.
Qed.

Lemma NoDup_for_range lo hi : NoDup (for_range lo hi).
Proof. apply NoDup_seqZ. Qed.

Lemma NoDup_all_worker_cells NT n :
  0 < NT → 4 ≤ slice_size NT n →
  NoDup (step_cell <$> concat (worker_updates NT n n <$> for_range 0 NT)).
Proof.
  intros HNT Hs. rewrite all_worker_cells by done.
  unfold slice_end, slice_start. set (s := slice_size NT n) in *.
  apply NoDup_bind; [| |apply NoDup_for_range].
  - intros t1 t2 p _ _ Hp1 Hp2.
    apply list_elem_of_bind in Hp1 as (j1 & Hp1 & _).
    apply list_elem_of_bind in Hp2 as (j2 & Hp2 & _).
    apply list_elem_of_fmap in Hp1 as (i1 & -> & Hi1).
    apply list_elem_of_fmap in Hp2 as (i2 & [= <- _] & Hi2).
    apply elem_of_for_range in Hi1, Hi2. nia.
  - intros t _. apply NoDup_bind; [| |apply NoDup_for_range].
    + intros j1 j2 p _ _ Hp1 Hp2.
      apply list_elem_of_fmap in Hp1 as (i1 & -> & _).
      apply list_elem_of_fmap in Hp2 as (i2 & [= _ <-] & _). done.
    + intros j _. apply NoDup_fmap_2; [|apply NoDup_for_range].
      intros i1 i2 [= ->]. done.
Qed.

(** ** Interleavings *)

Lemma concat_insert_head (threads : list (list step)) t s rest :
  threads !! t = Some (s :: rest) →
  concat threads ≡ₚ s :: concat (<[t := rest]> threads).
Proof.
  intros Ht. rewrite insert_take_drop by (by eapply lookup_lt_Some).
  rewrite <- (take_drop_middle threads t (s :: rest)) at 1 by done.
  rewrite !concat_app, !concat_cons, <- app_comm_cons.
  symmetry. apply Permutation_middle.
Qed.

Lemma interleave_perm sched : ∀ threads,
  interleave sched threads ≡ₚ concat threads.
Proof.
  induction sched as [|t sched IH]; intros threads; [done|]. simpl.
  destruct (threads !! t) as [[|s rest]|] eqn:Ht; [apply IH| |apply IH].
  rewrite IH. symmetry. by apply concat_insert_head.
Qed.

(** ** Loops over a range *)

Lemma for_range_last k : 0 ≤ k → for_range 0 (k + 1) = for_range 0 k ++ [k].
Proof.
  intros Hk. rewrite <- (for_range_app 0 k (k + 1)) by lia. f_equal.
  unfold for_range. replace (k + 1 - k) with 1 by lia. reflexivity.
Qed.

Lemma foldl_for_range_inv {A} (P : Z → A → Prop) (f : A → Z → A) N a :
  0 ≤ N → P 0 a →
  (∀ k a, 0 ≤ k < N → P k a → P (k + 1) (f a k)) →
  P N (foldl f a (for_range 0 N)).
Proof.
  intros HN H0 Hstep.
  assert (Hall : ∀ k : nat, Z.of_nat k ≤ N →
            P (Z.of_nat k) (foldl f a (for_range 0 (Z.of_nat k)))).
  { induction k as [|k IH]; intros Hk; [exact H0|].
    rewrite Nat2Z.inj_succ, <- Z.add_1_r, for_range_last, foldl_app by lia.
    simpl. apply Hstep; [lia|]. apply IH. lia. }
  specialize (Hall (Z.to_nat N)). rewrite Z2Nat.id in Hall by done.
  apply Hall. lia.
Qed.

(** ** The copy between the barriers *)

Lemma length_memcpy_at dst src off len :
  length dst = length src → 0 ≤ off → 0 ≤ len →
  off + len ≤ Z.of_nat (length dst) →
  length (memcpy_at dst src off len) = length dst.
Proof.
  intros Hlen Hoff Hl Hfit. unfold memcpy_at.
  rewrite !length_app, !length_take, !length_drop. lia.
Qed.

Lemma lookup_memcpy_at dst src off len (k : nat) :
  length dst = length src → 0 ≤ off → 0 ≤ len →
  off + len ≤ Z.of_nat (length dst) →
  memcpy_at dst src off len !! k
  = if decide (off ≤ Z.of_nat k < off + len) then src !! k else dst !! k.
Proof.
  intros Hlen Hoff Hl Hfit. unfold memcpy_at.
  destruct (decide (k < Z.to_nat off)%nat) as [Hlt|Hge].
  { rewrite lookup_app_l by (rewrite length_take; lia).
    rewrite lookup_take_lt by done. rewrite decide_False by lia. done. }
  rewrite lookup_app_r by (rewrite length_take; lia).
  rewrite length_take, Nat.min_l by lia.
  destruct (decide (k - Z.to_nat off < Z.to_nat len)%nat) as [Hlt|Hge'].
  { rewrite lookup_app_l by (rewrite length_take, length_drop; lia).
    rewrite lookup_take_lt, lookup_drop by done.
    rewrite decide_True by lia. f_equal. lia. }
  rewrite lookup_app_r by (rewrite length_take, length_drop; lia).
  rewrite length_take, length_drop, Nat.min_l by lia.
  rewrite lookup_drop, decide_False by lia. f_equal. lia.
Qed.

Lemma peek_lookup (b1 b2 : board) z :
  0 ≤ z → b1 !! Z.to_nat z = b2 !! Z.to_nat z → peek b1 z = peek b2 z.
Proof.
  intros Hz Heq. unfold peek. by rewrite Heq.
Qed.

Lemma peek_memcpy_at dst src off len z :
  length dst = length src → 0 ≤ off → 0 ≤ len →
  off + len ≤ Z.of_nat (length dst) → 0 ≤ z →
  peek (memcpy_at dst src off len) z
  = if decide (off ≤ z < off + len) then peek src z else peek dst z.
Proof.
  intros Hlen Hoff Hl Hfit Hz.
  pose proof (lookup_memcpy_at dst src off len (Z.to_nat z) Hlen Hoff Hl Hfit) as Hk.
  rewrite Z2Nat.id in Hk by done.
  destruct (decide (off ≤ z < off + len)); by apply peek_lookup.
Qed.

Lemma memcpy_at_same b off len : memcpy_at b b off len = b.
Proof.
  unfold memcpy_at. rewrite <- drop_drop.
  by rewrite (take_drop (Z.to_nat len)), take_drop.
Qed.

Lemma copies_all NT n out inb :
  0 < NT → 0 ≤ n → Z.rem n NT = 0 →
  length out = Z.to_nat (n * n) → length inb = Z.to_nat (n * n) →
  foldl (worker_copy NT n n) (Buffers out inb) (for_range 0 NT)
  = Buffers out out.
Proof.
  intros HNT Hn Hrem Hout Hinb.
  pose proof (slices_tile NT n HNT Hn Hrem) as Htile.
  set (s := slice_size NT n) in *.
  assert (0 ≤ s) by nia.
  pose (P := λ (k : Z) (m : buffers),
          outboard m = out ∧ length (inboard m) = length out
          ∧ ∀ z, 0 ≤ z < k * s * n → peek (inboard m) z = peek out z).
  assert (HP : P NT (foldl (worker_copy NT n n) (Buffers out inb) (for_range 0 NT))).
  { apply foldl_for_range_inv; [lia| |].
    - split; [done|]. split; [simpl; lia|]. intros z Hz. lia.
    - intros k m Hk (Ho & Hl & Hz). unfold worker_copy, slice_start.
      fold s. rewrite Ho. cbn [outboard inboard].
      assert (k * s * n + s * n ≤ n * n) by nia.
      assert (0 ≤ k * s * n) by nia. assert (0 ≤ s * n) by nia.
      split; [done|]. cbn [inboard]. split.
      + rewrite length_memcpy_at; [done| done | lia | lia | lia].
      + intros z Hz'. rewrite peek_memcpy_at; [|done|lia|lia|lia|lia].
        case_decide; [done|]. apply Hz. nia. }
  destruct HP as (Ho & Hl & Hz). destruct (foldl _ _ _) as [o i].
  cbn [outboard inboard] in *. subst o. f_equal.
  apply board_ext; [done|]. intros z Hz'. apply Hz. nia.
Qed.

(** ** One generation *)

Lemma generation_rep NT n sched f b :
  0 < NT → Z.rem n NT = 0 → 4 ≤ slice_size NT n →
  grid_rep n f f b →
  ∃ g b',
    generation NT n n n sched (Buffers b b) = Buffers b' b'
    ∧ grid_rep n g g b'
    ∧ ∀ i j, in_grid n i j → g (i, j) = next_flag n b (i, j).
Proof.
  intros HNT Hrem Hs Hrep.
  assert (Hn0 : 0 ≤ n).
  { destruct (Z.le_gt_cases 0 n) as [|Hneg]; [done|]. exfalso.
    unfold slice_size in Hs. pose proof (Z.quot_opp_l n NT ltac:(lia)).
    pose proof (Z.quot_pos (- n) NT ltac:(lia) ltac:(lia)). lia. }
  pose proof (slices_tile NT n HNT Hn0 Hrem) as Htile.
  assert (Hn : 0 < n) by nia.
  unfold generation. cbv zeta.
  set (threads := worker_updates NT n n <$> for_range 0 NT).
  set (L := interleave sched threads).
  assert (Hperm : step_cell <$> L ≡ₚ step_cell <$> concat threads).
  { apply fmap_Permutation, interleave_perm. }
  assert (Hmem : ∀ p, p ∈ step_cell <$> L ↔ in_grid n p.1 p.2).
  { intros p. rewrite Hperm. by apply elem_of_all_worker_cells. }
  destruct (run_steps_rep n f b L Hn Hrep) with (out := b) (g := f)
    as (Hinb & g & Hg & Hnew & _); [| |done|done|].
  { rewrite Hperm. by apply NoDup_all_worker_cells. }
  { apply Forall_forall. intros p Hp. by apply Hmem. }
  destruct (foldl (exec_step n n) _ L) as [out1 inb1].
  cbn [inboard outboard] in Hinb, Hg. subst inb1.
  exists g, out1. split; [|split; [done|]].
  - apply copies_all; [done..| apply Hg | apply Hrep].
  - intros i j Hij. apply Hnew. by apply Hmem.
Qed.

(** ** The codec *)

Lemma foldl_ext_list {A B} (f g : A → B → A) (l : list B) a :
  (∀ a x, f a x = g a x) → foldl f a l = foldl g a l.
Proof.
  intros Hfg. revert a. induction l as [|x l IH]; intros a; [done|].
  simpl. by rewrite Hfg, IH.
Qed.

Lemma foldl_poke_pointwise (h : Z → Z) N (b : board) :
  0 ≤ N ≤ Z.of_nat (length b) →
  let r := foldl (λ b z, poke b z (h (peek b z))) b (for_range 0 N) in
  length r = length b
  ∧ ∀ z, peek r z = if decide (0 ≤ z < N) then h (peek b z) else peek b z.
Proof.
  intros HN. cbv zeta.
  pose (P := λ k (r : board), length r = length b
              ∧ ∀ z, peek r z = if decide (0 ≤ z < k) then h (peek b z) else peek b z).
  change (P N (foldl (λ b z, poke b z (h (peek b z))) b (for_range 0 N))).
  apply foldl_for_range_inv; [lia| |]; unfold P.
  - split; [done|]. intros z. by rewrite decide_False by lia.
  - intros k r Hk [Hlen Hpt]. split; [by rewrite length_poke|]. intros z.
    destruct (decide (z = k)) as [->|Hne].
    + rewrite peek_poke_eq by lia. rewrite Hpt, decide_False by lia.
      by rewrite decide_True by lia.
    + rewrite peek_poke_ne by done. rewrite Hpt.
      destruct (decide (0 ≤ z < k)), (decide (0 ≤ z < k + 1)); try done; lia.
Qed.

Lemma peek_fmap (h : Z → Z) (b : board) z :
  0 ≤ z < Z.of_nat (length b) → peek (h <$> b) z = h (peek b z).
Proof.
  intros Hz. unfold peek. destruct (Z.leb_spec 0 z); [|lia].
  rewrite list_lookup_fmap.
  destruct (lookup_lt_is_Some_2 b (Z.to_nat z) ltac:(lia)) as [v ->]. done.
Qed.

Lemma postprocessing_decode (b : board) n :
  length b = Z.to_nat (n * n) → 0 ≤ n → postprocessing_board b n n = decode b.
Proof.
  intros Hlen Hn. unfold postprocessing_board, decode. cbv zeta.
  destruct (foldl_poke_pointwise ALIVE (n * n) b ltac:(nia)) as [Hl Hpt].
  apply board_ext; [by rewrite Hl, length_fmap|].
  intros z Hz. rewrite Hl in Hz. rewrite Hpt, decide_True by lia.
  by rewrite peek_fmap.
Qed.

Lemma peek_plain (plain : board) z :
  plainb plain = true → peek plain z = 0 ∨ peek plain z = 1.
Proof.
  intros Hp. unfold plainb in Hp. rewrite forallb_forall in Hp.
  unfold peek. destruct (Z.leb_spec 0 z); [|by left].
  destruct (plain !! Z.to_nat z) as [v|] eqn:Hv; [|by left].
  specialize (Hp v). rewrite <- list_elem_of_In in Hp.
  specialize (Hp (list_elem_of_lookup_2 _ _ _ Hv)).
  apply orb_true_iff in Hp as [?%Z.eqb_eq | ?%Z.eqb_eq]; auto.
Qed.

Lemma sum_counted_0 n plain l : sum_list (counted n plain 0 <$> l) = 0.
Proof.
  induction l as [|[i j] l IH]; [done|]. rewrite fmap_cons. cbn [sum_list].
  rewrite IH. unfold counted. cbn [fst snd]. case_decide as H; [|done].
  destruct H as [Hg Hlt]. pose proof (offset_range _ _ _ Hg). lia.
Qed.

Lemma counted_01 n plain k :
  plainb plain = true → ∀ p, 0 ≤ counted n plain k p ≤ 1.
Proof.
  intros Hp p. unfold counted. case_decide; [|lia].
  unfold BOARD. destruct (peek_plain plain (BOARD_offset n p.1 p.2) Hp); lia.
Qed.

(** Counting around one more cell of the plain board. *)
Lemma preprocess_cell_rep n plain brd i j :
  0 < n → plainb plain = true → in_grid n i j →
  grid_rep n (λ p, BOARD n plain p.1 p.2)
           (counted n plain (BOARD_offset n i j)) brd →
  grid_rep n (λ p, BOARD n plain p.1 p.2)
           (counted n plain (BOARD_offset n i j + 1))
           (preprocess_cell n brd i j n).
Proof.
  intros Hn Hp Hg Hrep.
  destruct (grid_rep_value _ _ _ _ i j Hrep Hg) as (k & Hk & Hk8 & _ & Hf).
  cbn [fst snd] in Hk, Hf.
  destruct (cell_fields _ k Hf ltac:(lia)) as (Hal & _).
  rewrite <- Hk in Hal.
  assert (Hnew : ∀ v, BOARD n plain i j = v → ∀ q,
            upd (counted n plain (BOARD_offset n i j)) (i, j) v q
            = counted n plain (BOARD_offset n i j + 1) q).
  { intros v Hv [r c]. unfold upd, counted. cbn [fst snd].
    destruct (decide ((r, c) = (i, j))) as [[= -> ->]|Hne].
    - by rewrite decide_True by (split; [done|lia]).
    - destruct (decide (in_grid n r c ∧ BOARD_offset n r c < BOARD_offset n i j))
        as [[Hg' Hlt]|Hno].
      + by rewrite decide_True by (split; [done|lia]).
      + rewrite decide_False; [done|]. intros [Hg' Hlt]. apply Hno.
        split; [done|].
        destruct (decide (BOARD_offset n r c = BOARD_offset n i j)) as [Heq|]; [|lia].
        exfalso. apply Hne. by eapply offset_inj. }
  unfold preprocess_cell, truthy. rewrite Hal.
  assert (BOARD n plain i j = 0 ∨ BOARD n plain i j = 1) as [Hd|Ha] by lia.
  - rewrite Hd. cbn [Z.eqb negb].
    eapply grid_rep_ext; [done| |exact Hrep].
    intros q. rewrite <- (Hnew 0 Hd q). unfold upd. case_decide as Heq; [|done].
    subst q. unfold counted. cbn [fst snd]. rewrite decide_False; [done|lia].
  - rewrite Ha. cbn [Z.eqb negb].
    change (grid_rep n (λ p, BOARD n plain p.1 p.2)
              (counted n plain (BOARD_offset n i j + 1))
              (inc_all n (code_neighbours n i j) brd)).
    rewrite code_neighbours_eq by apply Hg.
    eapply grid_rep_ext; [done|exact (Hnew 1 Ha)|].
    apply grid_rep_inc; [done..|].
    unfold counted. cbn [fst snd]. rewrite decide_False; [done|lia].
Qed.

Lemma memmove_all (dst src : board) len :
  length src = Z.to_nat len → length dst = Z.to_nat len →
  memmove dst src len = src.
Proof.
  intros Hs Hd. unfold memmove.
  rewrite take_ge, drop_ge by lia. apply app_nil_r.
Qed.

(** [preprocessing_board] leaves the encoded board in both buffers. *)
Lemma preprocessing_rep n (out plain : board) :
  0 < n → plainb plain = true →
  length plain = Z.to_nat (n * n) → length out = Z.to_nat (n * n) →
  ∃ enc,
    preprocessing_board n (Buffers out plain) n = Buffers enc enc
    ∧ grid_rep n (λ p, BOARD n plain p.1 p.2) (λ p, BOARD n plain p.1 p.2) enc.
Proof.
  intros Hn Hp Hlen Hout. unfold preprocessing_board. cbv zeta. cbn [inboard outboard].
  set (b1 := foldl _ plain (for_range 0 (n * n))).
  assert (Hb1 : grid_rep n (λ p, BOARD n plain p.1 p.2) (counted n plain 0) b1).
  { subst b1.
    rewrite (foldl_ext_list _ (λ b z, poke b z (encode_flag (peek b z)))).
    2:{ intros b z. unfold encode_flag. case_match; [done|].
        by rewrite poke_peek_id. }
    destruct (foldl_poke_pointwise encode_flag (n * n) plain ltac:(nia)) as [Hl Hpt].
    split; [lia|]. split.
    { intros p. unfold BOARD. destruct (peek_plain plain (BOARD_offset n p.1 p.2) Hp); lia. }
    split; [by apply counted_01|].
    intros i j Hg. rewrite sum_counted_0. cbn [fst snd]. unfold BOARD at 1.
    rewrite Hpt, decide_True by (by apply offset_range).
    fold (BOARD n plain i j). unfold encode_flag, BOARD.
    destruct (peek_plain plain (BOARD_offset n i j) Hp) as [-> | ->]; reflexivity. }
  clearbody b1.
  set (b2 := foldl _ b1 (for_range 0 n)).
  assert (Hb2 : grid_rep n (λ p, BOARD n plain p.1 p.2) (counted n plain (n * n)) b2).
  { subst b2.
    apply (foldl_for_range_inv
             (λ i brd, grid_rep n (λ p, BOARD n plain p.1 p.2)
                                (counted n plain (i * n)) brd)); [lia|done|].
    intros i brd Hi Hrow.
    replace ((i + 1) * n) with (i * n + n) by lia.
    apply (foldl_for_range_inv
             (λ j brd, grid_rep n (λ p, BOARD n plain p.1 p.2)
                                (counted n plain (i * n + j)) brd)); [lia| |].
    { by rewrite Z.add_0_r. }
    intros j brd' Hj Hcol. rewrite Z.add_assoc.
    by apply (preprocess_cell_rep n plain brd' i j). }
  clearbody b2. exists b2.
  assert (Hl2 : length b2 = Z.to_nat (n * n)) by apply Hb2.
  split; [by rewrite memmove_all|].
  destruct Hb2 as (_ & Hf01 & Ha01 & Hb). split; [done|]. split; [done|].
  split; [done|]. intros i j Hg. rewrite (Hb i j Hg). f_equal.
  apply sum_ext. eapply Forall_impl; [by apply neighbours_in_grid|].
  intros [r c] Hg'. cbn [fst snd] in Hg'. unfold counted. cbn [fst snd].
  rewrite decide_True; [done|]. split; [done|]. by apply offset_range.
Qed.

(** ** The engine against the reference *)

Lemma BOARD_decode n f a b i j :
  grid_rep n f a b → in_grid n i j → BOARD n (decode b) i j = f (i, j).
Proof.
  intros Hrep Hg.
  destruct (grid_rep_value n f a b i j Hrep Hg) as (k & Hk & Hk8 & _ & Hf).
  destruct Hrep as (Hlen & _). pose proof (offset_range _ _ _ Hg).
  unfold BOARD, decode. rewrite peek_fmap by lia.
  fold (BOARD n b i j). rewrite Hk. apply cell_fields; lia.
Qed.

Lemma alive_neighbours_decode n f a b i j :
  0 < n → grid_rep n f a b →
  alive_neighbours n (decode b) i j = sum_list (f <$> neighbours n i j).
Proof.
  intros Hn Hrep. unfold alive_neighbours. apply sum_ext.
  eapply Forall_impl; [by apply neighbours_in_grid|].
  intros [r c] Hg. cbn [fst snd] in *. by eapply BOARD_decode.
Qed.

Lemma count_field_exact n f b i j :
  0 < n → grid_rep n f f b → in_grid n i j →
  NEIGHBOURS (BOARD n b i j) = alive_neighbours n (decode b) i j.
Proof.
  intros Hn Hrep Hg. rewrite (alive_neighbours_decode n f f) by done.
  destruct (grid_rep_value n f f b i j Hrep Hg) as (k & Hk & Hk8 & <- & Hf).
  rewrite Hk. apply cell_fields; lia.
Qed.

Lemma peek_fmap_for_range (h : Z → Z) N z :
  0 ≤ z < N → peek (h <$> for_range 0 N) z = h z.
Proof.
  intros Hz. unfold peek, for_range. destruct (Z.leb_spec 0 z); [|lia].
  rewrite list_lookup_fmap, lookup_seqZ_lt by lia. simpl. f_equal. lia.
Qed.

Lemma length_naive_generation n plain :
  length (naive_generation n plain) = Z.to_nat (n * n).
Proof.
  unfold naive_generation. rewrite length_fmap, length_for_range. f_equal. lia.
Qed.

Lemma generation_naive n f g b b' :
  0 < n → grid_rep n f f b → grid_rep n g g b' →
  (∀ i j, in_grid n i j → g (i, j) = next_flag n b (i, j)) →
  decode b' = naive_generation n (decode b).
Proof.
  intros Hn Hb Hb' Hg.
  assert (Hl : length b' = Z.to_nat (n * n)) by apply Hb'.
  apply board_ext.
  { unfold decode at 1. by rewrite length_naive_generation, length_fmap. }
  intros z Hz. unfold decode at 1 in Hz. rewrite length_fmap, Hl in Hz.
  destruct (offset_split n z Hn ltac:(nia)) as [Hij Hoff].
  set (i := z `div` n) in *. set (j := z `mod` n) in *.
  unfold naive_generation. rewrite peek_fmap_for_range by nia. fold i j.
  rewrite Hoff at 1. fold (BOARD n (decode b') i j).
  rewrite (BOARD_decode n g g b') by done.
  rewrite Hg, (next_flag_rule n f) by done.
  unfold naive_cell, life_rule. cbv zeta.
  by rewrite (BOARD_decode n f f b), (alive_neighbours_decode n f f b).
Qed.

Lemma decode_preprocessed n (plain enc : board) :
  0 < n → length plain = Z.to_nat (n * n) →
  grid_rep n (λ p, BOARD n plain p.1 p.2) (λ p, BOARD n plain p.1 p.2) enc →
  decode enc = plain.
Proof.
  intros Hn Hlen Hrep. assert (Hl : length enc = Z.to_nat (n * n)) by apply Hrep.
  apply board_ext; [unfold decode; rewrite length_fmap; lia|].
  intros z Hz. unfold decode at 1 in Hz. rewrite length_fmap, Hl in Hz.
  destruct (offset_split n z Hn ltac:(nia)) as [Hij Hoff].
  rewrite Hoff. fold (BOARD n (decode enc) (z `div` n) (z `mod` n)).
  by rewrite (BOARD_decode n _ _ enc) by done.
Qed.

(** After any number of generations both buffers hold the same consistent
    encoding of the reference board. *)
Lemma generations_rep NT n sched (out plain : board) :
  0 < NT → Z.rem n NT = 0 → 4 ≤ slice_size NT n →
  plainb plain = true →
  length plain = Z.to_nat (n * n) → length out = Z.to_nat (n * n) →
  ∀ k : nat, ∃ f b,
    foldl (λ m curgen, generation NT n n n (sched curgen) m)
          (preprocessing_board n (Buffers out plain) n) (seq 0 k)
    = Buffers b b
    ∧ grid_rep n f f b
    ∧ decode b = naive_life n k plain.
Proof.
  intros HNT Hrem Hs Hp Hlen Hout.
  assert (Hn : 0 < n).
  { destruct (Z.le_gt_cases 0 n) as [|Hneg].
    - pose proof (slices_tile NT n HNT ltac:(done) Hrem). nia.
    - exfalso. unfold slice_size in Hs. pose proof (Z.quot_opp_l n NT ltac:(lia)).
      pose proof (Z.quot_pos (- n) NT ltac:(lia) ltac:(lia)). lia. }
  destruct (preprocessing_rep n out plain Hn Hp Hlen Hout) as (enc & -> & Henc).
  induction k as [|k IH].
  - eexists _, enc. split; [done|]. split; [done|].
    by apply (decode_preprocessed n).
  - destruct IH as (f & b & Hrun & Hrep & Hdec).
    rewrite seq_S, foldl_app, Hrun. simpl.
    destruct (generation_rep NT n (sched k) f b HNT Hrem Hs Hrep)
      as (g & b' & -> & Hrep' & Hg).
    exists g, b'. split; [done|]. split; [done|].
    rewrite (generation_naive n f g b b') by done. by rewrite Hdec.
Qed.

Lemma parallel_refines_naive NT n sched (out plain : board) gens :
  0 < NT → Z.rem n NT = 0 → 4 ≤ slice_size NT n →
  plainb plain = true →
  length plain = Z.to_nat (n * n) → length out = Z.to_nat (n * n) →
  parallel_game_of_life NT sched out plain n n gens
  = naive_life n (Z.to_nat gens) plain.
Proof.
  intros HNT Hrem Hs Hp Hlen Hout. unfold parallel_game_of_life, generations.
  cbv zeta.
  destruct (generations_rep NT n sched out plain HNT Hrem Hs Hp Hlen Hout
              (Z.to_nat gens)) as (f & b & -> & Hrep & Hdec).
  cbn [outboard]. rewrite postprocessing_decode; [done|apply Hrep|].
  destruct (Z.le_gt_cases 0 n) as [|Hneg]; [done|]. exfalso.
  unfold slice_size in Hs. pose proof (Z.quot_opp_l n NT ltac:(lia)).
  pose proof (Z.quot_pos (- n) NT ltac:(lia) ltac:(lia)). lia.
Qed.

(** ** The flag macros against their description *)

Lemma flag_macros_spec c :
  ALIVE (KILL c) = 0 ∧ NEIGHBOURS (KILL c) = NEIGHBOURS c
  ∧ ALIVE (SPAWN c) = 1 ∧ NEIGHBOURS (SPAWN c) = NEIGHBOURS c.
Proof.
  unfold ALIVE, NEIGHBOURS, KILL, SPAWN.
  assert (Hbit : ∀ x, Z.land (Z.shiftr x 4) 1 = Z.b2z (Z.testbit x 4)).
  { intros x. change 1 with (Z.ones 1). rewrite Z.land_ones by lia.
    change (2 ^ 1) with 2. rewrite <- Z.bit0_mod.
    by rewrite Z.shiftr_spec by lia. }
  rewrite !Hbit, Z.land_spec, Z.lor_spec, Z.lnot_spec by lia.
  change (Z.testbit 16 4) with true.
  rewrite andb_false_r, orb_true_r.
  rewrite <- Z.land_assoc, Z.land_lor_distr_l.
  change (Z.land (Z.lnot 16) 15) with 15. change (Z.land 16 15) with 0.
  by rewrite Z.lor_0_r.
Qed.

(** ** The all-dead board *)

Lemma foldl_fixed {A B} (f : A → B → A) (l : list B) a :
  (∀ x, f a x = a) → foldl f a l = a.
Proof. intros Hf. induction l as [|x l IH]; [done|]. simpl. by rewrite Hf. Qed.

Lemma peek_empty_board n z : peek (empty_board n) z = 0.
Proof.
  unfold peek, empty_board. destruct (0 <=? z); [|done].
  destruct (replicate _ _ !! _) as [v|] eqn:Hv; [|done].
  by apply lookup_replicate in Hv as [-> _].
Qed.

Lemma do_cell_empty LDA n i j size :
  do_cell LDA (Buffers (empty_board n) (empty_board n)) i j size
  = Buffers (empty_board n) (empty_board n).
Proof.
  rewrite do_cell_cases. cbn [inboard outboard]. unfold BOARD.
  by rewrite peek_empty_board.
Qed.

Lemma generation_empty NT LDA nrows ncols sched n :
  generation NT LDA nrows ncols sched (Buffers (empty_board n) (empty_board n))
  = Buffers (empty_board n) (empty_board n).
Proof.
  unfold generation. cbv zeta.
  rewrite (foldl_fixed (exec_step LDA nrows)).
  - apply foldl_fixed. intros t. unfold worker_copy. cbn [inboard outboard].
    by rewrite memcpy_at_same.
  - intros [lock i j|i j]; apply do_cell_empty.
Qed.

Lemma preprocessing_empty n (out : board) :
  length out = Z.to_nat (n * n) →
  preprocessing_board n (Buffers out (empty_board n)) n
  = Buffers (empty_board n) (empty_board n).
Proof.
  intros Hout. unfold preprocessing_board. cbv zeta. cbn [inboard outboard].
  rewrite (foldl_fixed _ (for_range 0 (n * n))).
  2:{ intros z. by rewrite peek_empty_board. }
  rewrite (foldl_fixed _ (for_range 0 n)).
  2:{ intros i. apply foldl_fixed. intros j. unfold preprocess_cell, BOARD.
      by rewrite peek_empty_board. }
  rewrite memmove_all; [done| |done].
  unfold empty_board. by rewrite length_replicate.
Qed.

Lemma postprocessing_empty n nrows ncols :
  postprocessing_board (empty_board n) nrows ncols = empty_board n.
Proof.
  unfold postprocessing_board. cbv zeta. apply foldl_fixed. intros z.
  rewrite peek_empty_board. change (ALIVE 0) with 0.
  rewrite <- (peek_empty_board n z) at 1. apply poke_peek_id.
Qed.

(** ** Cells an update leaves alone *)

Lemma peek_dec_all_frame LDA l : ∀ b z,
  (∀ p, p ∈ l → z ≠ BOARD_offset LDA p.1 p.2) →
  peek (dec_all LDA l b) z = peek b z.
Proof.
  induction l as [|p l IH]; intros b z Hz; [done|].
  change (dec_all LDA (p :: l) b) with (dec_all LDA l (N_DEC LDA b p.1 p.2)).
  rewrite IH by (intros q Hq; apply Hz; by right).
  apply peek_poke_ne. intros Heq. by apply (Hz p); [left|].
Qed.

Lemma peek_inc_all_frame LDA l : ∀ b z,
  (∀ p, p ∈ l → z ≠ BOARD_offset LDA p.1 p.2) →
  peek (inc_all LDA l b) z = peek b z.
Proof.
  induction l as [|p l IH]; intros b z Hz; [done|].
  change (inc_all LDA (p :: l) b) with (inc_all LDA l (N_INC LDA b p.1 p.2)).
  rewrite IH by (intros q Hq; apply Hz; by right).
  apply peek_poke_ne. intros Heq. by apply (Hz p); [left|].
Qed.

(** ** Rows visited more than once *)

Lemma visits_app i l k : visits i (l ++ k) = (visits i l + visits i k)%nat.
Proof. unfold visits. by rewrite filter_app, length_app. Qed.

Lemma visits_elem i l : i ∈ l → (1 ≤ visits i l)%nat.
Proof.
  intros Hi. unfold visits.
  assert (Hin : i ∈ filter (λ r, r = i) l) by (by apply list_elem_of_filter).
  destruct (filter _ l); [by apply elem_of_nil in Hin | simpl; lia].
Qed.

(** * The claims *)

(** ** do_cell and the margin update *)

(** C9: for a cell of a boundary margin, the update the worker inlines
    (test ALIVE and TOKILL on the current cell, then [kill_cell]; otherwise
    test TOSPAWN, then [spawn_cell]) changes the buffers exactly as
    [do_cell] does at the same position. *)
Theorem margin_update_is_do_cell LDA m i j nrows :
  margin_cell LDA m i j nrows = do_cell LDA m i j nrows.
Proof.
  unfold margin_cell, do_cell. cbv zeta.
  destruct (truthy (ALIVE (BOARD LDA (inboard m) i j)));
    [destruct (TOKILL (BOARD LDA (inboard m) i j))
    |destruct (TOSPAWN (BOARD LDA (inboard m) i j))];
    unfold kill_cell, spawn_cell; reflexivity.
Qed.

(** C4: [do_cell] at a position of the grid.  If the current cell is alive
    and its count is neither 2 nor 3, the cell is marked dead in the next
    buffer and the count of each of its eight toroidal neighbours is
    decremented there; if it is dead and its count is 3, it is marked alive
    and the eight counts are incremented; in every other case the next
    buffer is unchanged. *)
Theorem do_cell_transition LDA m i j size :
  0 ≤ i < size → 0 ≤ j < size →
  let cell := BOARD LDA (inboard m) i j in
  let next := outboard m in
  (ALIVE cell ≠ 0 ∧ NEIGHBOURS cell ≠ 2 ∧ NEIGHBOURS cell ≠ 3 →
   outboard (do_cell LDA m i j size)
   = dec_all LDA (neighbours size i j)
       (BOARD_store LDA next i j (KILL (BOARD LDA next i j))))
  ∧ (ALIVE cell = 0 ∧ NEIGHBOURS cell = 3 →
     outboard (do_cell LDA m i j size)
     = inc_all LDA (neighbours size i j)
         (BOARD_store LDA next i j (SPAWN (BOARD LDA next i j))))
  ∧ (¬ (ALIVE cell ≠ 0 ∧ NEIGHBOURS cell ≠ 2 ∧ NEIGHBOURS cell ≠ 3) →
     ¬ (ALIVE cell = 0 ∧ NEIGHBOURS cell = 3) →
     outboard (do_cell LDA m i j size) = next).
Proof.
  intros Hi Hj cell next. rewrite do_cell_cases. cbv zeta. fold cell.
  rewrite kill_cell_fold, spawn_cell_fold, code_neighbours_eq by done.
  unfold TOKILL, TOSPAWN, truthy.
  destruct (Z.eqb_spec (ALIVE cell) 0) as [Ha|Ha],
           (Z.eqb_spec (NEIGHBOURS cell) 2) as [H2|H2],
           (Z.eqb_spec (NEIGHBOURS cell) 3) as [H3|H3];
    cbn [negb andb outboard];
    (split; [|split]); intros; try done; try lia; tauto.
Qed.

Lemma do_cell_transition_witness :
  outboard (do_cell 3 (Buffers [1; 1; 1; 1; 16; 1; 1; 1; 1]
                               [1; 1; 1; 1; 16; 1; 1; 1; 1]) 1 1 3)
  = [0; 0; 0; 0; 0; 0; 0; 0; 0].
Proof.
  destruct (do_cell_transition 3 (Buffers [1; 1; 1; 1; 16; 1; 1; 1; 1]
                                          [1; 1; 1; 1; 16; 1; 1; 1; 1]) 1 1 3
              ltac:(lia) ltac:(lia)) as [Hdie _].
  rewrite Hdie; [reflexivity|]. vm_compute. repeat split; discriminate.
Defined.

(** C7: [do_cell] at a position of the grid leaves the current buffer as it
    is, and in the next buffer every cell other than the cell itself and its
    eight toroidal neighbours keeps its value. *)
Theorem do_cell_frame LDA m i j size :
  0 ≤ i < size → 0 ≤ j < size →
  inboard (do_cell LDA m i j size) = inboard m
  ∧ length (outboard (do_cell LDA m i j size)) = length (outboard m)
  ∧ ∀ z, z ≠ BOARD_offset LDA i j →
      (∀ p, p ∈ neighbours size i j → z ≠ BOARD_offset LDA p.1 p.2) →
      peek (outboard (do_cell LDA m i j size)) z = peek (outboard m) z.
Proof.
  intros Hi Hj. rewrite do_cell_cases. cbv zeta.
  rewrite kill_cell_fold, spawn_cell_fold, code_neighbours_eq by done.
  destruct (truthy (ALIVE (BOARD LDA (inboard m) i j))),
           (TOKILL (BOARD LDA (inboard m) i j)),
           (TOSPAWN (BOARD LDA (inboard m) i j)); cbn [inboard outboard];
    (split; [done|]);
    rewrite ?length_dec_all, ?length_inc_all, ?length_BOARD_store;
    (split; [done|]); intros z Hz Hnb; try done;
    rewrite ?peek_dec_all_frame, ?peek_inc_all_frame by done;
    by apply peek_poke_ne.
Qed.

Lemma do_cell_frame_witness :
  peek (outboard (do_cell 4 (Buffers (replicate 16 3) (replicate 16 3)) 1 1 4)) 15 = 3.
Proof.
  destruct (do_cell_frame 4 (Buffers (replicate 16 3) (replicate 16 3)) 1 1 4
              ltac:(lia) ltac:(lia)) as (_ & _ & Hframe).
  rewrite Hframe; [reflexivity | vm_compute; discriminate |].
  intros p Hp. vm_compute in Hp.
  repeat (apply elem_of_cons in Hp as [-> | Hp]; [vm_compute; discriminate|]).
  by apply elem_of_nil in Hp.
Defined.

(** ** The worker's row loops *)

(** C10: in one column the three row loops of a worker visit exactly the
    rows of its slice, each once, if and only if the slice has at least
    four rows; a non-empty slice of fewer than four rows has a row that
    lies in both margins and is visited twice. *)
Theorem worker_rows_once NT nrows ith j :
  let s := slice_size NT nrows in
  let start := slice_start NT nrows ith in
  let end_ := slice_end NT nrows ith in
  (column_rows NT nrows ith j ≡ₚ for_range start end_ ↔ 4 ≤ s)
  ∧ (0 < s < 4 →
     ∃ i, start ≤ i < end_
          ∧ i ∈ for_range start (start + 2) ∧ i ∈ for_range (end_ - 2) end_
          ∧ (2 ≤ visits i (column_rows NT nrows ith j))%nat).
Proof.
  intros s start end_. split.
  - split.
    + intros Hperm%Permutation_length.
      rewrite column_rows_parts, !length_app, !length_for_range in Hperm.
      fold start end_ in Hperm. unfold end_, slice_end in Hperm.
      fold start s in Hperm. lia.
    + intros Hs. by rewrite column_rows_exact.
  - intros Hs. exists (start + Z.max 0 (s - 2)).
    assert (Hup : start + Z.max 0 (s - 2) ∈ for_range start (start + 2))
      by (apply elem_of_for_range; lia).
    assert (Hlo : start + Z.max 0 (s - 2) ∈ for_range (end_ - 2) end_)
      by (apply elem_of_for_range; unfold end_, slice_end; fold start s; lia).
    split; [unfold end_, slice_end; fold start s; lia|].
    split; [done|]. split; [done|].
    rewrite column_rows_parts, !visits_app. fold start end_.
    apply visits_elem in Hup, Hlo. lia.
Qed.

Lemma worker_rows_once_witness :
  column_rows 8 32 3 5 ≡ₚ for_range (slice_start 8 32 3) (slice_end 8 32 3).
Proof.
  apply (worker_rows_once 8 32 3 5). vm_compute. discriminate.
Defined.

(** ** The dispatcher *)

(** C2: with at least 32 rows, [game_of_life] returns a null pointer exactly
    when the row count or the column count exceeds 10000; with fewer than
    32 rows it returns whatever the sequential implementation returns. *)
Theorem game_of_life_rejects_oversized NT seq sched (out inb : board) nrows ncols g :
  (32 ≤ nrows →
   (game_of_life NT seq sched out inb nrows ncols g = None
    ↔ 10000 < nrows ∨ 10000 < ncols))
  ∧ (nrows < 32 →
     game_of_life NT seq sched out inb nrows ncols g = seq out inb nrows ncols g).
Proof.
  unfold game_of_life.
  destruct (Z.ltb_spec nrows 32), (Z.ltb_spec 10000 nrows),
           (Z.ltb_spec 10000 ncols); cbn [orb];
    (split; [intros ?; try lia; split; intros ?; (done || lia || tauto)
            |intros ?; (done || lia)]).
Qed.

Lemma game_of_life_rejects_oversized_witness :
  game_of_life 8 sequential_returns_outboard one_by_one [] [] 64 20000 1 = None.
Proof.
  apply (game_of_life_rejects_oversized 8 sequential_returns_outboard one_by_one
           [] [] 64 20000 1); lia.
Defined.

(** C2, as stated, fails on a board of 10 rows and 20000 columns: the row
    count is below 32, so the sequential implementation is called and its
    buffer returned. *)
Lemma small_wide_board_goes_sequential :
  (10000 < 10 ∨ 10000 < 20000)
  ∧ game_of_life 8 sequential_returns_outboard one_by_one [] [] 10 20000 1 ≠ None.
Proof. split; [lia | discriminate]. Qed.

(** ** The codec *)

(** C5: decoding right after encoding gives back the plain board:
    [postprocessing_board] applied to the buffer [preprocessing_board]
    leaves is the plain 0/1 board it was given. *)
Theorem decode_encode_identity n (out plain : board) :
  0 ≤ n → plainb plain = true →
  length plain = Z.to_nat (n * n) → length out = Z.to_nat (n * n) →
  postprocessing_board (outboard (preprocessing_board n (Buffers out plain) n)) n n
  = plain.
Proof.
  intros Hn Hp Hlen Hout. destruct (decide (n = 0)) as [->|Hne].
  - destruct plain, out; done.
  - destruct (preprocessing_rep n out plain ltac:(lia) Hp Hlen Hout)
      as (enc & -> & Henc).
    cbn [outboard]. rewrite postprocessing_decode; [|apply Henc|done].
    apply (decode_preprocessed n); [lia|done..].
Qed.

Lemma decode_encode_identity_witness :
  postprocessing_board
    (outboard (preprocessing_board 2 (Buffers [0; 0; 0; 0] diagonal2) 2)) 2 2
  = diagonal2.
Proof. apply decode_encode_identity; [lia | reflexivity..]. Defined.

(** C3: right after [preprocessing_board] the count field of every cell is
    the number of alive toroidal neighbours of that cell in the plain
    board; and when every worker's slice has at least four rows, after any
    number of generations the count field of every cell is the number of
    alive neighbours of that cell in the decoded board. *)
Theorem neighbour_counts_exact NT n sched (out plain : board) :
  0 < n → plainb plain = true →
  length plain = Z.to_nat (n * n) → length out = Z.to_nat (n * n) →
  let encoded := preprocessing_board n (Buffers out plain) n in
  (∀ i j, in_grid n i j →
     NEIGHBOURS (BOARD n (inboard encoded) i j) = alive_neighbours n plain i j
     ∧ NEIGHBOURS (BOARD n (outboard encoded) i j) = alive_neighbours n plain i j)
  ∧ (0 < NT → Z.rem n NT = 0 → 4 ≤ slice_size NT n →
     ∀ gens i j, in_grid n i j →
       let m := generations NT n n n gens sched encoded in
       NEIGHBOURS (BOARD n (outboard m) i j)
       = alive_neighbours n (postprocessing_board (outboard m) n n) i j
       ∧ inboard m = outboard m).
Proof.
  intros Hn Hp Hlen Hout encoded. split.
  - subst encoded.
    destruct (preprocessing_rep n out plain Hn Hp Hlen Hout) as (enc & -> & Henc).
    cbn [inboard outboard]. intros i j Hg.
    rewrite (count_field_exact n _ enc i j Hn Henc Hg).
    by rewrite (decode_preprocessed n plain enc).
  - intros HNT Hrem Hs gens i j Hg m. subst m encoded. unfold generations.
    destruct (generations_rep NT n sched out plain HNT Hrem Hs Hp Hlen Hout
                (Z.to_nat gens)) as (f & b & -> & Hrep & _).
    cbn [inboard outboard]. split; [|done].
    rewrite postprocessing_decode; [|apply Hrep|lia].
    by apply (count_field_exact n f).
Qed.

Lemma neighbour_counts_exact_witness :
  NEIGHBOURS (BOARD 32 (outboard
    (generations 8 32 32 32 2 mixed
       (preprocessing_board 32 (Buffers (empty_board 32) blinker32) 32))) 5 5)
  = alive_neighbours 32 (postprocessing_board (outboard
      (generations 8 32 32 32 2 mixed
         (preprocessing_board 32 (Buffers (empty_board 32) blinker32) 32))) 32 32) 5 5.
Proof.
  destruct (neighbour_counts_exact 8 32 mixed (empty_board 32) blinker32)
    as [_ Hgens]; [lia | reflexivity | reflexivity | reflexivity |].
  apply Hgens; [lia | reflexivity | vm_compute; discriminate | unfold in_grid; lia].
Defined.

(** C3, as stated, fails when slices are thinner than four rows: with 16
    workers on 32 rows every cell is updated twice, and after one generation
    of the blinker the cell (3, 5) holds the count 2 while no neighbour of
    it is alive in the decoded board. *)
Lemma counts_drift_with_thin_slices :
  NEIGHBOURS (BOARD 32 (outboard
    (generations 16 32 32 32 1 one_by_one
       (preprocessing_board 32 (Buffers (empty_board 32) blinker32) 32))) 3 5)
  ≠ alive_neighbours 32 (postprocessing_board (outboard
      (generations 16 32 32 32 1 one_by_one
         (preprocessing_board 32 (Buffers (empty_board 32) blinker32) 32))) 32 32) 3 5.
Proof. vm_compute. discriminate. Qed.

(** ** The engine *)

(** C1: on a square plain 0/1 board of size [n], 32 <= n <= 10000, with a
    thread count that divides [n] and leaves every worker at least four
    rows, [game_of_life] returns the board that the naive recomputation of
    Conway's rules gives after [g] generations, whatever the interleaving
    of the workers. *)
Theorem game_of_life_refines_naive NT seq sched (out plain : board) n g :
  0 < NT → 32 ≤ n ≤ 10000 → Z.rem n NT = 0 → 4 ≤ slice_size NT n →
  plainb plain = true →
  length plain = Z.to_nat (n * n) → length out = Z.to_nat (n * n) →
  game_of_life NT seq sched out plain n n g
  = Some (naive_life n (Z.to_nat g) plain).
Proof.
  intros HNT Hn Hrem Hs Hp Hlen Hout. unfold game_of_life.
  destruct (Z.ltb_spec n 32); [lia|].
  destruct (Z.ltb_spec 10000 n); [lia|]. cbn [orb].
  by rewrite parallel_refines_naive.
Qed.

Lemma game_of_life_refines_naive_witness :
  game_of_life 8 sequential_returns_null mixed (empty_board 32) blinker32 32 32 3
  = Some (naive_life 32 3 blinker32).
Proof.
  apply game_of_life_refines_naive;
    [lia | lia | reflexivity | vm_compute; discriminate | reflexivity..].
Defined.

(** C1, as stated, fails for a thread count that divides [n] but leaves
    slices of two rows: 16 workers on the 32-by-32 blinker return a board
    whose cell (4, 3) is alive after one generation. *)
Lemma game_of_life_thin_slices_diverge :
  32 ≤ 32 ≤ 10000 ∧ Z.rem 32 16 = 0 ∧ plainb blinker32 = true
  ∧ length blinker32 = Z.to_nat (32 * 32)
  ∧ game_of_life 16 sequential_returns_null one_by_one
      (empty_board 32) blinker32 32 32 1
    ≠ Some (naive_life 32 1 blinker32).
Proof.
  split; [lia|]. split; [reflexivity|]. split; [reflexivity|].
  split; [reflexivity|]. intros Heq.
  apply (f_equal (λ r, match r with Some b => BOARD 32 b 4 3 | None => 0 end)) in Heq.
  vm_compute in Heq. discriminate.
Qed.

(** C6: two thread counts that both divide the row count and both leave
    every worker at least four rows give the same result, whatever the
    interleavings. *)
Theorem thread_count_irrelevant NT1 NT2 seq sched1 sched2 (out plain : board) n g :
  0 < NT1 → 0 < NT2 → Z.rem n NT1 = 0 → Z.rem n NT2 = 0 →
  4 ≤ slice_size NT1 n → 4 ≤ slice_size NT2 n →
  plainb plain = true →
  length plain = Z.to_nat (n * n) → length out = Z.to_nat (n * n) →
  game_of_life NT1 seq sched1 out plain n n g
  = game_of_life NT2 seq sched2 out plain n n g.
Proof.
  intros H1 H2 Hr1 Hr2 Hs1 Hs2 Hp Hlen Hout. unfold game_of_life.
  destruct (n <? 32); [done|].
  destruct ((10000 <? n) || (10000 <? n)); [done|].
  by rewrite !parallel_refines_naive.
Qed.

Lemma thread_count_irrelevant_witness :
  game_of_life 8 sequential_returns_null mixed (empty_board 32) blinker32 32 32 2
  = game_of_life 4 sequential_returns_null one_by_one (empty_board 32) blinker32 32 32 2.
Proof.
  apply thread_count_irrelevant;
    [lia | lia | reflexivity | reflexivity
    | vm_compute; discriminate | vm_compute; discriminate | reflexivity..].
Defined.

(** C6, as stated, fails when one of the thread counts leaves slices of two
    rows: 16 and 8 both divide 32, and on the blinker the two results differ
    in the cell (4, 3) after one generation. *)
Lemma thread_counts_16_and_8_differ :
  Z.rem 32 16 = 0 ∧ Z.rem 32 8 = 0
  ∧ game_of_life 16 sequential_returns_null one_by_one
      (empty_board 32) blinker32 32 32 1
    ≠ game_of_life 8 sequential_returns_null one_by_one
        (empty_board 32) blinker32 32 32 1.
Proof.
  split; [reflexivity|]. split; [reflexivity|]. intros Heq.
  apply (f_equal (λ r, match r with Some b => BOARD 32 b 4 3 | None => 0 end)) in Heq.
  vm_compute in Heq. discriminate.
Qed.

(** C8: on every accepted size the all-dead board stays all-dead for any
    number of generations, for any thread count and interleaving: no update
    of a generation writes, and every copy copies zeros over zeros. *)
Theorem empty_board_stays_empty NT seq sched (out : board) n g :
  32 ≤ n ≤ 10000 → length out = Z.to_nat (n * n) →
  game_of_life NT seq sched out (empty_board n) n n g = Some (empty_board n).
Proof.
  intros Hn Hout. unfold game_of_life.
  destruct (Z.ltb_spec n 32); [lia|].
  destruct (Z.ltb_spec 10000 n); [lia|]. cbn [orb]. f_equal.
  unfold parallel_game_of_life. cbv zeta.
  rewrite preprocessing_empty by done. unfold generations.
  rewrite foldl_fixed by (intros; apply generation_empty).
  apply postprocessing_empty.
Qed.

Lemma empty_board_stays_empty_witness :
  game_of_life 8 sequential_returns_null mixed (empty_board 32) (empty_board 32) 32 32 5
  = Some (empty_board 32).
Proof. apply empty_board_stays_empty; [lia | reflexivity]. Defined.

(** * Further properties of the code *)

(** ** Buffer lengths *)

Lemma length_foldl_keep {A} (f : list Z → A → list Z) (l : list A) :
  (∀ b x, length (f b x) = length b) →
  ∀ b, length (foldl f b l) = length b.
Proof.
  intros Hf. induction l as [|x l IH]; intros b; [done|].
  simpl. by rewrite IH, Hf.
Qed.

Lemma length_preprocess_cell LDA b i j size :
  length (preprocess_cell LDA b i j size) = length b.
Proof.
  unfold preprocess_cell. case_match; [|done]. cbv zeta.
  by rewrite !length_N_INC.
Qed.

Lemma length_encoded LDA (inb : board) size :
  length (foldl (λ brd i,
            foldl (λ brd j, preprocess_cell LDA brd i j size) brd (for_range 0 size))
          (foldl (λ brd i, if peek brd i =? 1 then poke brd i (SPAWN 0) else brd)
                 inb (for_range 0 (size * size)))
          (for_range 0 size))
  = length inb.
Proof.
  rewrite length_foldl_keep.
  - apply length_foldl_keep. intros b z. case_match; [apply length_poke|done].
  - intros b i. apply length_foldl_keep. intros b' j.
    apply length_preprocess_cell.
Qed.

Lemma length_kill_cell LDA b i j size :
  length (kill_cell LDA b i j size) = length b.
Proof. by rewrite kill_cell_fold, length_dec_all, length_BOARD_store. Qed.

Lemma length_spawn_cell LDA b i j size :
  length (spawn_cell LDA b i j size) = length b.
Proof. by rewrite spawn_cell_fold, length_inc_all, length_BOARD_store. Qed.

Lemma exec_step_shape LDA nrows m s :
  inboard (exec_step LDA nrows m s) = inboard m
  ∧ length (outboard (exec_step LDA nrows m s)) = length (outboard m).
Proof.
  assert (Hdo : ∀ i j, inboard (do_cell LDA m i j nrows) = inboard m
            ∧ length (outboard (do_cell LDA m i j nrows)) = length (outboard m)).
  { intros i j. rewrite do_cell_cases. cbv zeta.
    destruct (truthy (ALIVE (BOARD LDA (inboard m) i j))),
             (TOKILL (BOARD LDA (inboard m) i j)),
             (TOSPAWN (BOARD LDA (inboard m) i j)); cbn [inboard outboard];
      by rewrite ?length_kill_cell, ?length_spawn_cell. }
  destruct s as [lock i j|i j]; apply Hdo.
Qed.

Lemma run_steps_shape LDA nrows (L : list step) : ∀ m,
  inboard (foldl (exec_step LDA nrows) m L) = inboard m
  ∧ length (outboard (foldl (exec_step LDA nrows) m L)) = length (outboard m).
Proof.
  induction L as [|s L IH]; intros m; [done|]. simpl.
  destruct (IH (exec_step LDA nrows m s)) as [-> ->].
  apply exec_step_shape.
Qed.

(** The copies of one generation, for any thread count: they stay inside
    the buffers, and touch no offset from [NUM_THREADS * slice_size] rows
    on. *)
Lemma copies_shape NT nrows ncols (out inb : board) :
  0 < NT → 0 ≤ nrows → 0 ≤ ncols →
  length out = Z.to_nat (nrows * ncols) → length inb = Z.to_nat (nrows * ncols) →
  let m := foldl (worker_copy NT nrows ncols) (Buffers out inb) (for_range 0 NT) in
  outboard m = out ∧ length (inboard m) = length inb
  ∧ ∀ z, NT * slice_size NT nrows * ncols ≤ z → peek (inboard m) z = peek inb z.
Proof.
  intros HNT Hr Hc Hout Hinb. cbv zeta.
  assert (Hq : 0 ≤ slice_size NT nrows ∧ NT * slice_size NT nrows ≤ nrows).
  { unfold slice_size. split; [apply Z.quot_pos; lia|].
    apply Z.mul_quot_le; lia. }
  set (s := slice_size NT nrows) in *. destruct Hq as [Hs Hfit].
  pose (P := λ (k : Z) (m : buffers),
          outboard m = out ∧ length (inboard m) = length inb
          ∧ ∀ z, NT * s * ncols ≤ z → peek (inboard m) z = peek inb z).
  change (P NT (foldl (worker_copy NT nrows ncols) (Buffers out inb) (for_range 0 NT))).
  apply foldl_for_range_inv; [lia|done|]. unfold P.
  intros k m Hk (Ho & Hl & Hz). unfold worker_copy, slice_start. fold s.
  rewrite Ho. cbn [outboard inboard].
  assert (0 ≤ k * s * ncols) by nia. assert (0 ≤ s * ncols) by nia.
  assert (k * s * ncols + s * ncols ≤ NT * s * ncols) by nia.
  assert (NT * s * ncols ≤ nrows * ncols) by nia.
  split; [done|]. split.
  - rewrite length_memcpy_at; [done|lia|lia|lia|lia].
  - intros z Hz'. rewrite peek_memcpy_at; [|lia|lia|lia|lia|lia].
    rewrite decide_False by lia. by apply Hz.
Qed.

Lemma generation_shape NT LDA nrows ncols sched m :
  0 < NT → 0 ≤ nrows → 0 ≤ ncols →
  length (outboard m) = Z.to_nat (nrows * ncols) →
  length (inboard m) = Z.to_nat (nrows * ncols) →
  length (outboard (generation NT LDA nrows ncols sched m)) = length (outboard m)
  ∧ length (inboard (generation NT LDA nrows ncols sched m)) = length (inboard m)
  ∧ ∀ z, NT * slice_size NT nrows * ncols ≤ z →
      peek (inboard (generation NT LDA nrows ncols sched m)) z = peek (inboard m) z.
Proof.
  intros HNT Hr Hc Hout Hinb. unfold generation. cbv zeta.
  set (L := interleave sched _).
  destruct (run_steps_shape LDA nrows L m) as [Hi Ho].
  destruct (foldl (exec_step LDA nrows) m L) as [out1 inb1].
  cbn [inboard outboard] in Hi, Ho. subst inb1.
  destruct (copies_shape NT nrows ncols out1 (inboard m) HNT Hr Hc
              ltac:(lia) Hinb) as (-> & Hl & Hz).
  by rewrite Ho.
Qed.

Lemma ALIVE_01 v : ALIVE v = 0 ∨ ALIVE v = 1.
Proof.
  unfold ALIVE. pose proof (Z.land_ones (Z.shiftr v 4) 1 ltac:(lia)) as Hm.
  change (Z.ones 1) with 1 in Hm. change (2 ^ 1) with 2 in Hm.
  pose proof (Z.mod_pos_bound (Z.shiftr v 4) 2 ltac:(lia)). lia.
Qed.

Lemma plainb_intro (b : board) :
  (∀ z, 0 ≤ z < Z.of_nat (length b) → peek b z = 0 ∨ peek b z = 1) →
  plainb b = true.
Proof.
  intros Hpt. unfold plainb. apply forallb_forall. intros v Hv.
  apply list_elem_of_In, list_elem_of_lookup_1 in Hv as [k Hk].
  pose proof (lookup_lt_Some _ _ _ Hk) as Hlt.
  specialize (Hpt (Z.of_nat k) ltac:(lia)). unfold peek in Hpt.
  destruct (Z.leb_spec 0 (Z.of_nat k)); [|lia].
  rewrite Nat2Z.id, Hk in Hpt. simpl in Hpt.
  apply orb_true_iff. rewrite !Z.eqb_eq. done.
Qed.

Lemma preprocessing_shape LDA m size :
  length (inboard m) = Z.to_nat (size * size) →
  length (outboard m) = Z.to_nat (size * size) →
  outboard (preprocessing_board LDA m size) = inboard (preprocessing_board LDA m size)
  ∧ length (inboard (preprocessing_board LDA m size)) = Z.to_nat (size * size).
Proof.
  intros Hin Hout. unfold preprocessing_board. cbv zeta. cbn [inboard outboard].
  pose proof (length_encoded LDA (inboard m) size) as Hl.
  split; [|lia]. apply memmove_all; lia.
Qed.

Lemma generations_shape NT LDA n gens sched m :
  0 < NT → 0 ≤ n →
  length (outboard m) = Z.to_nat (n * n) → length (inboard m) = Z.to_nat (n * n) →
  length (outboard (generations NT LDA n n gens sched m)) = Z.to_nat (n * n)
  ∧ length (inboard (generations NT LDA n n gens sched m)) = Z.to_nat (n * n).
Proof.
  intros HNT Hn. unfold generations. generalize (Z.to_nat gens). intros k.
  induction k as [|k IH]; intros Hout Hin; [done|].
  rewrite seq_S, foldl_app. simpl. destruct (IH Hout Hin) as [Ho Hi].
  destruct (generation_shape NT LDA n n (sched k) _ HNT Hn Hn Ho Hi) as (-> & -> & _).
  done.
Qed.

(** ** The codec on arbitrary buffers *)

(** X1: [postprocessing_board] replaces each of the first [nrows * ncols]
    cells of a buffer by its alive flag, 0 or 1; it keeps the cells after
    them and the length of the buffer. *)
Theorem postprocessing_board_decodes (b : board) nrows ncols :
  0 ≤ nrows * ncols ≤ Z.of_nat (length b) →
  length (postprocessing_board b nrows ncols) = length b
  ∧ ∀ z, peek (postprocessing_board b nrows ncols) z
         = (if decide (0 ≤ z < nrows * ncols) then ALIVE (peek b z) else peek b z)
         ∧ (0 ≤ z < nrows * ncols →
            peek (postprocessing_board b nrows ncols) z = 0
            ∨ peek (postprocessing_board b nrows ncols) z = 1).
Proof.
  intros Hfit. unfold postprocessing_board. cbv zeta.
  destruct (foldl_poke_pointwise ALIVE (nrows * ncols) b Hfit) as [Hl Hpt].
  split; [done|]. intros z. split; [apply Hpt|].
  intros Hz. rewrite Hpt, decide_True by done. apply ALIVE_01.
Qed.

Lemma postprocessing_board_decodes_witness :
  peek (postprocessing_board [16; 19; 3; 18; 7] 2 2) 3 = 1
  ∧ peek (postprocessing_board [16; 19; 3; 18; 7] 2 2) 4 = 7.
Proof.
  destruct (postprocessing_board_decodes [16; 19; 3; 18; 7] 2 2) as [_ Hpt];
    [simpl; lia|].
  split; [rewrite (proj1 (Hpt 3)) | rewrite (proj1 (Hpt 4))]; reflexivity.
Defined.

(** X2: [preprocessing_board] works on any contents: for two buffers of
    [size * size] cells it ends with the next buffer equal to the current
    one, both still [size * size] cells long. *)
Theorem preprocessing_board_copies LDA m size :
  length (inboard m) = Z.to_nat (size * size) →
  length (outboard m) = Z.to_nat (size * size) →
  outboard (preprocessing_board LDA m size) = inboard (preprocessing_board LDA m size)
  ∧ length (inboard (preprocessing_board LDA m size)) = Z.to_nat (size * size).
Proof. apply preprocessing_shape. Qed.

Lemma preprocessing_board_copies_witness :
  outboard (preprocessing_board 32 (Buffers blinker32 noise32) 32)
  = inboard (preprocessing_board 32 (Buffers blinker32 noise32) 32).
Proof. apply preprocessing_board_copies; reflexivity. Defined.

(** ** The engine on arbitrary buffers and thread counts *)

(** X3: the initial contents of the next buffer do not matter: two runs of
    [parallel_game_of_life] that differ only in [outboard] return the same
    board. *)
Theorem outboard_contents_irrelevant NT sched (out1 out2 inb : board) nrows ncols g :
  length inb = Z.to_nat (nrows * nrows) →
  length out1 = Z.to_nat (nrows * nrows) →
  length out2 = Z.to_nat (nrows * nrows) →
  parallel_game_of_life NT sched out1 inb nrows ncols g
  = parallel_game_of_life NT sched out2 inb nrows ncols g.
Proof.
  intros Hin H1 H2. unfold parallel_game_of_life. cbv zeta.
  assert (Hpre : ∀ out, length out = Z.to_nat (nrows * nrows) →
            preprocessing_board nrows (Buffers out inb) nrows
            = Buffers (inboard (preprocessing_board nrows (Buffers [] inb) nrows))
                      (inboard (preprocessing_board nrows (Buffers [] inb) nrows))).
  { intros out Hout.
    destruct (preprocessing_shape nrows (Buffers out inb) nrows Hin Hout) as [Heq _].
    destruct (preprocessing_board nrows (Buffers out inb) nrows) as [o i] eqn:Hp.
    cbn [inboard outboard] in Heq. subst o. f_equal;
      by apply (f_equal inboard) in Hp. }
  by rewrite (Hpre out1 H1), (Hpre out2 H2).
Qed.

Lemma outboard_contents_irrelevant_witness :
  parallel_game_of_life 8 mixed noise32 blinker32 32 32 2
  = parallel_game_of_life 8 mixed (empty_board 32) blinker32 32 32 2.
Proof. apply outboard_contents_irrelevant; reflexivity. Defined.

(** X4: whatever the thread count, the interleaving and the contents of the
    two buffers, for an accepted size [game_of_life] returns a board of
    [n * n] cells that are all 0 or 1. *)
Theorem game_of_life_returns_plain NT seq sched (out inb : board) n g :
  0 < NT → 32 ≤ n ≤ 10000 →
  length inb = Z.to_nat (n * n) → length out = Z.to_nat (n * n) →
  ∃ b, game_of_life NT seq sched out inb n n g = Some b
       ∧ length b = Z.to_nat (n * n) ∧ plainb b = true.
Proof.
  intros HNT Hn Hin Hout. unfold game_of_life.
  destruct (Z.ltb_spec n 32); [lia|].
  destruct (Z.ltb_spec 10000 n); [lia|]. cbn [orb].
  eexists. split; [done|]. unfold parallel_game_of_life. cbv zeta.
  destruct (preprocessing_shape n (Buffers out inb) n Hin Hout) as [Heq Hl].
  destruct (generations_shape NT n n g sched
              (preprocessing_board n (Buffers out inb) n) HNT ltac:(lia)
              ltac:(by rewrite Heq) Hl) as [Ho _].
  set (final := outboard (generations _ _ _ _ _ _ _)) in *.
  unfold postprocessing_board. cbv zeta.
  destruct (foldl_poke_pointwise ALIVE (n * n) final ltac:(lia)) as [Hlen Hpt].
  split; [lia|]. apply plainb_intro. intros z Hz.
  rewrite Hpt, decide_True by lia. apply ALIVE_01.
Qed.

Lemma game_of_life_returns_plain_witness :
  ∃ b, game_of_life 16 sequential_returns_null mixed noise32 noise32 32 32 2 = Some b
       ∧ length b = Z.to_nat (32 * 32) ∧ plainb b = true.
Proof. apply game_of_life_returns_plain; [lia | lia | reflexivity..]. Defined.

(** X5: with no generation to run ([gens_max] zero or negative)
    [game_of_life] returns the plain board it was given, for every thread
    count. *)
Theorem zero_generations_return_input NT seq sched (out plain : board) n g :
  g ≤ 0 → 32 ≤ n ≤ 10000 → plainb plain = true →
  length plain = Z.to_nat (n * n) → length out = Z.to_nat (n * n) →
  game_of_life NT seq sched out plain n n g = Some plain.
Proof.
  intros Hg Hn Hp Hlen Hout. unfold game_of_life.
  destruct (Z.ltb_spec n 32); [lia|].
  destruct (Z.ltb_spec 10000 n); [lia|]. cbn [orb]. f_equal.
  unfold parallel_game_of_life, generations. cbv zeta.
  replace (Z.to_nat g) with 0%nat by lia. cbn [List.seq foldl].
  destruct (preprocessing_rep n out plain ltac:(lia) Hp Hlen Hout)
    as (enc & -> & Henc).
  cbn [outboard]. rewrite postprocessing_decode; [|apply Henc|lia].
  apply (decode_preprocessed n); [lia|done..].
Qed.

Lemma zero_generations_return_input_witness :
  game_of_life 3 sequential_returns_null mixed noise32 blinker32 32 32 (-4)
  = Some blinker32.
Proof. apply zero_generations_return_input; [lia | lia | reflexivity..]. Defined.

(** X6: at the end of every generation the current buffer equals the next
    buffer, for any contents, any interleaving and any thread count that
    divides the row count (slices of fewer than four rows included). *)
Theorem generation_leaves_buffers_equal NT LDA n sched m :
  0 < NT → 0 ≤ n → Z.rem n NT = 0 →
  length (outboard m) = Z.to_nat (n * n) → length (inboard m) = Z.to_nat (n * n) →
  inboard (generation NT LDA n n sched m) = outboard (generation NT LDA n n sched m).
Proof.
  intros HNT Hn Hrem Hout Hin. unfold generation. cbv zeta.
  set (L := interleave sched _).
  destruct (run_steps_shape LDA n L m) as [Hi Ho].
  destruct (foldl (exec_step LDA n) m L) as [out1 inb1].
  cbn [inboard outboard] in Hi, Ho. subst inb1.
  by rewrite copies_all by (done || lia).
Qed.

Lemma generation_leaves_buffers_equal_witness :
  inboard (generation 16 32 32 32 [3; 0; 3]%nat (Buffers noise32 blinker32))
  = outboard (generation 16 32 32 32 [3; 0; 3]%nat (Buffers noise32 blinker32)).
Proof.
  apply generation_leaves_buffers_equal; [lia | lia | reflexivity..].
Defined.

(** X7: when the thread count does not divide the row count, the rows from
    [NUM_THREADS * slice_size] on belong to no worker: a generation leaves
    them in the current buffer as they were. *)
Theorem leftover_rows_keep_current NT LDA nrows ncols sched m z :
  0 < NT → 0 ≤ nrows → 0 ≤ ncols →
  length (outboard m) = Z.to_nat (nrows * ncols) →
  length (inboard m) = Z.to_nat (nrows * ncols) →
  NT * slice_size NT nrows * ncols ≤ z →
  peek (inboard (generation NT LDA nrows ncols sched m)) z = peek (inboard m) z.
Proof.
  intros HNT Hr Hc Hout Hin Hz.
  by apply (generation_shape NT LDA nrows ncols sched m).
Qed.

Lemma leftover_rows_keep_current_witness :
  peek (inboard (generation 5 32 32 32 [] (Buffers noise32 blinker32))) (30 * 32 + 7)
  = peek blinker32 (30 * 32 + 7).
Proof.
  apply (leftover_rows_keep_current 5 32 32 32 [] (Buffers noise32 blinker32));
    [lia | lia | lia | reflexivity | reflexivity | vm_compute; discriminate].
Defined.

(** ** Boards with exact counts *)

Lemma grid_ext n (b1 b2 : board) :
  0 < n → length b1 = Z.to_nat (n * n) → length b2 = Z.to_nat (n * n) →
  (∀ i j, in_grid n i j → BOARD n b1 i j = BOARD n b2 i j) → b1 = b2.
Proof.
  intros Hn H1 H2 Hpt. apply board_ext; [lia|]. intros z Hz.
  destruct (offset_split n z Hn ltac:(lia)) as [Hg Hoff].
  rewrite Hoff. by apply Hpt.
Qed.

Lemma BOARD_decode_any n (b : board) i j :
  length b = Z.to_nat (n * n) → in_grid n i j →
  BOARD n (decode b) i j = ALIVE (BOARD n b i j).
Proof.
  intros Hlen Hg. pose proof (offset_range _ _ _ Hg).
  unfold BOARD, decode. apply peek_fmap. lia.
Qed.

Lemma well_encoded_rep n b :
  0 < n → well_encoded n b →
  grid_rep n (λ p, ALIVE (BOARD n b p.1 p.2)) (λ p, ALIVE (BOARD n b p.1 p.2)) b.
Proof.
  intros Hn [Hlen Hb].
  assert (H01 : ∀ p : Z * Z, 0 ≤ ALIVE (BOARD n b p.1 p.2) ≤ 1).
  { intros p. destruct (ALIVE_01 (BOARD n b p.1 p.2)); lia. }
  split; [done|]. split; [done|]. split; [done|].
  intros i j Hg. rewrite (Hb i j Hg) at 1. cbn [fst snd]. f_equal.
  unfold alive_neighbours. apply sum_ext.
  eapply Forall_impl; [by apply neighbours_in_grid|].
  intros [r c] Hg'. cbn [fst snd] in *. by apply BOARD_decode_any.
Qed.

Lemma rep_well_encoded n f b :
  0 < n → grid_rep n f f b →
  well_encoded n b ∧ ∀ i j, in_grid n i j → ALIVE (BOARD n b i j) = f (i, j).
Proof.
  intros Hn Hrep.
  assert (Hal : ∀ i j, in_grid n i j → ALIVE (BOARD n b i j) = f (i, j)).
  { intros i j Hg.
    destruct (grid_rep_value n f f b i j Hrep Hg) as (k & -> & Hk8 & _ & Hf).
    apply cell_fields; lia. }
  split; [|done]. split; [apply Hrep|]. intros i j Hg.
  rewrite (alive_neighbours_decode n f f b) by done. rewrite (Hal i j Hg).
  by apply Hrep.
Qed.

(** X8: on a torus of any size, [kill_cell] on an alive cell and
    [spawn_cell] on a dead cell keep the counts of a board exact: every
    count is still the number of alive neighbours, and the decoded board
    differs only in the cell killed or spawned. *)
Theorem kill_spawn_keep_counts n (b : board) i j :
  0 < n → well_encoded n b → in_grid n i j →
  (ALIVE (BOARD n b i j) = 1 →
   well_encoded n (kill_cell n b i j n)
   ∧ decode (kill_cell n b i j n) = BOARD_store n (decode b) i j 0)
  ∧ (ALIVE (BOARD n b i j) = 0 →
     well_encoded n (spawn_cell n b i j n)
     ∧ decode (spawn_cell n b i j n) = BOARD_store n (decode b) i j 1).
Proof.
  intros Hn Hwe Hg. pose proof (well_encoded_rep n b Hn Hwe) as Hrep.
  set (f := λ p : Z * Z, ALIVE (BOARD n b p.1 p.2)) in *.
  destruct (grid_rep_value n f f b i j Hrep Hg) as (k & Hk & Hk8 & Hsum & Hf).
  destruct (cell_fields (f (i, j)) k Hf ltac:(lia)) as (_ & _ & Hsp & Hki).
  rewrite <- Hk in Hsp, Hki.
  assert (Hlen : length b = Z.to_nat (n * n)) by apply Hwe.
  assert (Hdone : ∀ v b', 0 ≤ v ≤ 1 →
            grid_rep n (upd f (i, j) v) (upd f (i, j) v) b' →
            well_encoded n b' ∧ decode b' = BOARD_store n (decode b) i j v).
  { intros v b' Hv Hrep'.
    destruct (rep_well_encoded n _ b' Hn Hrep') as [Hwe' Hal]. split; [done|].
    assert (Hl' : length b' = Z.to_nat (n * n)) by apply Hwe'.
    apply (grid_ext n); [done| | |].
    - unfold decode. by rewrite length_fmap.
    - unfold decode. by rewrite length_BOARD_store, length_fmap.
    - intros r c Hg'. rewrite BOARD_decode_any, Hal by done. unfold upd.
      case_decide as Heq.
      + injection Heq as -> ->. rewrite BOARD_store_eq; [done| |done].
        unfold decode. by rewrite length_fmap.
      + rewrite BOARD_store_ne by done. by rewrite BOARD_decode_any. }
  split; intros Ha.
  - apply (Hdone 0); [lia|].
    rewrite kill_cell_fold, code_neighbours_eq by apply Hg.
    rewrite Hki, Hsum. apply grid_rep_dec; [done| |done|done].
    apply grid_rep_flag; [done..|lia].
  - apply (Hdone 1); [lia|].
    rewrite spawn_cell_fold, code_neighbours_eq by apply Hg.
    rewrite Hsp, Hsum. apply grid_rep_inc; [done| |done|done].
    apply grid_rep_flag; [done..|lia].
Qed.

Lemma kill_spawn_keep_counts_witness :
  decode (kill_cell 2 [20; 4; 4; 20] 0 0 2) = BOARD_store 2 (decode [20; 4; 4; 20]) 0 0 0.
Proof.
  destruct (kill_spawn_keep_counts 2 [20; 4; 4; 20] 0 0) as [Hkill _];
    [lia | | unfold in_grid; lia | apply Hkill; reflexivity].
  split; [reflexivity|]. intros i j [Hi Hj].
  assert (i = 0 ∨ i = 1) as [-> | ->] by lia;
    (assert (j = 0 ∨ j = 1) as [-> | ->] by lia); reflexivity.
Defined.

(** X9: the encoded cells never overflow.  Right after
    [preprocessing_board], and after any number of generations when slices
    have at least four rows, every cell of the next buffer is exactly
    [16 * flag + count] with the flag 0 or 1 and the count between 0 and 8. *)
Theorem cells_stay_in_range NT n sched (out plain : board) :
  0 < n → plainb plain = true →
  length plain = Z.to_nat (n * n) → length out = Z.to_nat (n * n) →
  let encoded := preprocessing_board n (Buffers out plain) n in
  let in_range c :=
    c = 16 * ALIVE c + NEIGHBOURS c ∧ 0 ≤ ALIVE c ≤ 1 ∧ 0 ≤ NEIGHBOURS c ≤ 8 in
  (∀ i j, in_grid n i j → in_range (BOARD n (outboard encoded) i j))
  ∧ (0 < NT → Z.rem n NT = 0 → 4 ≤ slice_size NT n →
     ∀ gens i j, in_grid n i j →
       in_range (BOARD n (outboard (generations NT n n n gens sched encoded)) i j)).
Proof.
  intros Hn Hp Hlen Hout encoded in_range.
  assert (Hrange : ∀ f b i j, grid_rep n f f b → in_grid n i j →
            in_range (BOARD n b i j)).
  { intros f b i j Hrep Hg.
    destruct (grid_rep_value n f f b i j Hrep Hg) as (k & -> & Hk8 & _ & Hf).
    destruct (cell_fields (f (i, j)) k Hf ltac:(lia)) as (Ha & Hc & _).
    unfold in_range. rewrite Ha, Hc. lia. }
  split.
  - subst encoded.
    destruct (preprocessing_rep n out plain Hn Hp Hlen Hout) as (enc & -> & Henc).
    intros i j Hg. by eapply Hrange.
  - intros HNT Hrem Hs gens i j Hg. subst encoded. unfold generations.
    destruct (generations_rep NT n sched out plain HNT Hrem Hs Hp Hlen Hout
                (Z.to_nat gens)) as (f & b & -> & Hrep & _).
    by eapply Hrange.
Qed.

Lemma cells_stay_in_range_witness :
  0 ≤ NEIGHBOURS (BOARD 32 (outboard
        (generations 8 32 32 32 3 mixed
           (preprocessing_board 32 (Buffers noise32 blinker32) 32))) 4 5) ≤ 8.
Proof.
  destruct (cells_stay_in_range 8 32 mixed noise32 blinker32) as [_ Hgens];
    [lia | reflexivity | reflexivity | reflexivity |].
  apply Hgens; [lia | reflexivity | vm_compute; discriminate | unfold in_grid; lia].
Defined.

(** ** Killing and spawning undo each other *)

Lemma to_char_range a : -128 ≤ to_char a ≤ 127.
Proof.
  unfold to_char. pose proof (Z.mod_pos_bound (a + 128) 256 ltac:(lia)). lia.
Qed.

Lemma to_char_add a k : to_char (to_char a + k) = to_char (a + k).
Proof.
  unfold to_char. f_equal.
  replace ((a + 128) `mod` 256 - 128 + k + 128) with ((a + 128) `mod` 256 + k) by lia.
  rewrite Z.add_mod_idemp_l by lia. f_equal. lia.
Qed.

Lemma char_checks_ok v : -128 ≤ v ≤ 127 → char_checks v = true.
Proof.
  intros Hv.
  assert (Hall : forallb char_checks (seqZ (-128) 256) = true) by reflexivity.
  rewrite forallb_forall in Hall. apply Hall.
  apply list_elem_of_In, elem_of_seqZ. lia.
Qed.

Lemma flag_round_trip v :
  -128 ≤ v ≤ 127 →
  -128 ≤ KILL v ≤ 127 ∧ -128 ≤ SPAWN v ≤ 127
  ∧ (ALIVE v = 1 → SPAWN (KILL v) = v) ∧ (ALIVE v = 0 → KILL (SPAWN v) = v).
Proof.
  intros Hv. pose proof (char_checks_ok v Hv) as Hk. unfold char_checks in Hk.
  rewrite !andb_true_iff, !Z.leb_le in Hk.
  destruct Hk as (((((_ & ?) & ?) & ?) & ?) & Hrt).
  split; [lia|]. split; [lia|]. split; intros Ha; rewrite Ha in Hrt.
  - by apply Z.eqb_eq.
  - by apply Z.eqb_eq.
Qed.

Lemma peek_char (b : board) z : charb b = true → -128 ≤ peek b z ≤ 127.
Proof.
  intros Hc. unfold charb in Hc. rewrite forallb_forall in Hc.
  unfold peek. destruct (Z.leb_spec 0 z); [|lia].
  destruct (b !! Z.to_nat z) as [v|] eqn:Hv; [|simpl; lia].
  specialize (Hc v). rewrite <- list_elem_of_In in Hc.
  specialize (Hc (list_elem_of_lookup_2 _ _ _ Hv)).
  apply andb_true_iff in Hc as [?%Z.leb_le ?%Z.leb_le]. simpl. lia.
Qed.

Lemma BOARD_inc_all_wrap n l : ∀ b r c,
  length b = Z.to_nat (n * n) →
  Forall (λ p, in_grid n p.1 p.2) l → in_grid n r c →
  -128 ≤ BOARD n b r c ≤ 127 →
  BOARD n (inc_all n l b) r c = to_char (BOARD n b r c + occ (r, c) l).
Proof.
  induction l as [|[i j] l IH]; intros b r c Hlen Hl Hg Hv.
  - unfold occ. simpl. rewrite Z.add_0_r. by rewrite to_char_id.
  - apply Forall_cons in Hl as [Hp Hl]. simpl in Hp. rewrite occ_cons.
    change (inc_all n ((i, j) :: l) b) with (inc_all n l (N_INC n b i j)).
    rewrite IH; [|by rewrite length_N_INC|done|done|];
      rewrite BOARD_N_INC by done; destruct (decide ((i, j) = (r, c)));
      try done; [|apply to_char_range].
    rewrite to_char_add. f_equal. lia.
Qed.

Lemma BOARD_dec_all_wrap n l : ∀ b r c,
  length b = Z.to_nat (n * n) →
  Forall (λ p, in_grid n p.1 p.2) l → in_grid n r c →
  -128 ≤ BOARD n b r c ≤ 127 →
  BOARD n (dec_all n l b) r c = to_char (BOARD n b r c - occ (r, c) l).
Proof.
  induction l as [|[i j] l IH]; intros b r c Hlen Hl Hg Hv.
  - unfold occ. simpl. rewrite Z.sub_0_r. by rewrite to_char_id.
  - apply Forall_cons in Hl as [Hp Hl]. simpl in Hp. rewrite occ_cons.
    change (dec_all n ((i, j) :: l) b) with (dec_all n l (N_DEC n b i j)).
    rewrite IH; [|by rewrite length_N_DEC|done|done|];
      rewrite BOARD_N_DEC by done; destruct (decide ((i, j) = (r, c)));
      try done; [|apply to_char_range].
    replace (to_char (BOARD n b r c - 1) - occ (r, c) l)
      with (to_char (BOARD n b r c - 1) + - occ (r, c) l) by lia.
    rewrite to_char_add. f_equal. lia.
Qed.

Lemma shift_ne n x d :
  2 ≤ n → 0 ≤ x < n → d = 1 ∨ d = -1 → (x + d) `mod` n ≠ x.
Proof.
  intros Hn Hx Hd Heq.
  pose proof (Z.div_mod (x + d) n ltac:(lia)) as Hdm. rewrite Heq in Hdm.
  set (q := (x + d) `div` n) in *.
  assert (Hq : d = n * q) by lia.
  destruct (Z.lt_trichotomy q 0) as [?|[?|?]]; nia.
Qed.

Lemma neighbour_ne n i j d1 d2 :
  2 ≤ n → in_grid n i j → (d1 = 1 ∨ d1 = -1) ∨ (d2 = 1 ∨ d2 = -1) →
  ((i + d1) `mod` n, (j + d2) `mod` n) ≠ (i, j).
Proof.
  intros Hn [Hi Hj] Hd [= H1 H2]. destruct Hd as [Hd|Hd].
  - by apply (shift_ne n i d1).
  - by apply (shift_ne n j d2).
Qed.

Lemma not_own_neighbour n i j :
  2 ≤ n → in_grid n i j → occ (i, j) (neighbours n i j) = 0.
Proof.
  intros Hn Hg. unfold occ, neighbours, offsets. simpl.
  rewrite !decide_False by (apply neighbour_ne; [done|done|lia]). done.
Qed.

(** X10: on a board of characters, on a torus of at least two rows,
    [spawn_cell] undoes [kill_cell] on an alive cell and [kill_cell] undoes
    [spawn_cell] on a dead cell: the board is restored cell for cell,
    also where a count wrapped around in between. *)
Theorem kill_spawn_inverse n (b : board) i j :
  2 ≤ n → charb b = true → length b = Z.to_nat (n * n) → in_grid n i j →
  (ALIVE (BOARD n b i j) = 1 →
   spawn_cell n (kill_cell n b i j n) i j n = b)
  ∧ (ALIVE (BOARD n b i j) = 0 →
     kill_cell n (spawn_cell n b i j n) i j n = b).
Proof.
  intros Hn Hc Hlen Hg.
  pose proof (neighbours_in_grid n i j ltac:(lia)) as Hnb.
  pose proof (not_own_neighbour n i j Hn Hg) as Hown.
  assert (Hch : ∀ r c, -128 ≤ BOARD n b r c ≤ 127) by (intros; by apply peek_char).
  destruct (flag_round_trip (BOARD n b i j) (Hch i j)) as (Hk & Hs & Hsk & Hks).
  rewrite !kill_cell_fold, !spawn_cell_fold, !code_neighbours_eq by apply Hg.
  split; intros Ha.
  - set (b1 := BOARD_store n b i j (KILL (BOARD n b i j))).
    assert (Hl1 : length b1 = Z.to_nat (n * n)) by (by unfold b1; rewrite length_BOARD_store).
    assert (Hb2 : ∀ r c, in_grid n r c →
              BOARD n (dec_all n (neighbours n i j) b1) r c
              = if decide ((r, c) = (i, j)) then KILL (BOARD n b i j)
                else to_char (BOARD n b r c - occ (r, c) (neighbours n i j))).
    { intros r c Hg'. destruct (decide ((r, c) = (i, j))) as [[= -> ->]|Hne].
      - rewrite BOARD_dec_all_wrap by (done || (unfold b1; by rewrite BOARD_store_eq)).
        unfold b1. rewrite BOARD_store_eq, Hown, Z.sub_0_r by done.
        by apply to_char_id.
      - assert (Hsame : BOARD n b1 r c = BOARD n b r c)
          by (unfold b1; by rewrite BOARD_store_ne).
        rewrite BOARD_dec_all_wrap by (done || (rewrite Hsame; apply Hch)).
        by rewrite Hsame. }
    set (b2 := dec_all n (neighbours n i j) b1) in *.
    assert (Hl2 : length b2 = Z.to_nat (n * n)) by (by unfold b2; rewrite length_dec_all).
    apply (grid_ext n); [lia| |done|].
    { by rewrite length_inc_all, length_BOARD_store. }
    intros r c Hg'. destruct (decide ((r, c) = (i, j))) as [[= -> ->]|Hne].
    + rewrite BOARD_inc_all_wrap; [|by rewrite length_BOARD_store|done|done|];
        rewrite BOARD_store_eq, Hb2, decide_True, Hsk by done; [|apply Hch].
      rewrite Hown, Z.add_0_r. apply to_char_id, Hch.
    + rewrite BOARD_inc_all_wrap; [|by rewrite length_BOARD_store|done|done|];
        rewrite BOARD_store_ne, Hb2, decide_False by done; [|apply to_char_range].
      rewrite to_char_add.
      replace (BOARD n b r c - occ (r, c) (neighbours n i j)
               + occ (r, c) (neighbours n i j)) with (BOARD n b r c) by lia.
      apply to_char_id, Hch.
  - set (b1 := BOARD_store n b i j (SPAWN (BOARD n b i j))).
    assert (Hl1 : length b1 = Z.to_nat (n * n)) by (by unfold b1; rewrite length_BOARD_store).
    assert (Hb2 : ∀ r c, in_grid n r c →
              BOARD n (inc_all n (neighbours n i j) b1) r c
              = if decide ((r, c) = (i, j)) then SPAWN (BOARD n b i j)
                else to_char (BOARD n b r c + occ (r, c) (neighbours n i j))).
    { intros r c Hg'. destruct (decide ((r, c) = (i, j))) as [[= -> ->]|Hne].
      - rewrite BOARD_inc_all_wrap by (done || (unfold b1; by rewrite BOARD_store_eq)).
        unfold b1. rewrite BOARD_store_eq, Hown, Z.add_0_r by done.
        by apply to_char_id.
      - assert (Hsame : BOARD n b1 r c = BOARD n b r c)
          by (unfold b1; by rewrite BOARD_store_ne).
        rewrite BOARD_inc_all_wrap by (done || (rewrite Hsame; apply Hch)).
        by rewrite Hsame. }
    set (b2 := inc_all n (neighbours n i j) b1) in *.
    assert (Hl2 : length b2 = Z.to_nat (n * n)) by (by unfold b2; rewrite length_inc_all).
    apply (grid_ext n); [lia| |done|].
    { by rewrite length_dec_all, length_BOARD_store. }
    intros r c Hg'. destruct (decide ((r, c) = (i, j))) as [[= -> ->]|Hne].
    + rewrite BOARD_dec_all_wrap; [|by rewrite length_BOARD_store|done|done|];
        rewrite BOARD_store_eq, Hb2, decide_True, Hks by done; [|apply Hch].
      rewrite Hown, Z.sub_0_r. apply to_char_id, Hch.
    + rewrite BOARD_dec_all_wrap; [|by rewrite length_BOARD_store|done|done|];
        rewrite BOARD_store_ne, Hb2, decide_False by done; [|apply to_char_range].
      replace (to_char (BOARD n b r c + occ (r, c) (neighbours n i j))
               - occ (r, c) (neighbours n i j))
        with (to_char (BOARD n b r c + occ (r, c) (neighbours n i j))
              + - occ (r, c) (neighbours n i j)) by lia.
      rewrite to_char_add.
      replace (BOARD n b r c + occ (r, c) (neighbours n i j)
               + - occ (r, c) (neighbours n i j)) with (BOARD n b r c) by lia.
      apply to_char_id, Hch.
Qed.

Lemma kill_spawn_inverse_witness :
  spawn_cell 32 (kill_cell 32 noise32 0 1 32) 0 1 32 = noise32.
Proof.
  destruct (kill_spawn_inverse 32 noise32 0 1) as [Hks _];
    [lia | vm_compute; reflexivity | vm_compute; reflexivity
    | unfold in_grid; lia |].
  apply Hks. vm_compute. reflexivity.
Defined.

(** ** The boundary mutexes *)








(** ** One generation on any board with exact counts *)


